(** * Snake for the micro:bit: a shallow embedding of [source/main.cpp]

    The game logic of [main.cpp] is translated function by function.  The
    program keeps its state in two globals, [game] and [currentTurn]; here
    they are the two fields of [World], passed explicitly.  Machine integers
    are [Z] with the wrap-around written out, the fixed array [tail] is a
    list indexed through bounds-checked accessors, and [rand()] reads from a
    tape of values supplied by the environment. *)

From Stdlib Require Import ZArith Lia.
From stdpp Require Import base tactics option list sorting.

Local Open Scope Z_scope.

(** ** Constants *)

Definition MAX_SNAKE_LENGTH : Z := 24.
Definition GRID_SIZE : Z := 5.
Definition HEAD_BRIGHTNESS : Z := 255.
Definition TAIL_BRIGHTNESS : Z := 128.
Definition FOOD_BRIGHTNESS : Z := 255.

(** ** Machine integers *)

(** Conversion to [int8_t]: two's complement wrap-around. *)
Definition wrap_int8 (z : Z) : Z := (z + 128) mod 256 - 128.

(** Conversion to [uint8_t]. *)
Definition wrap_uint8 (z : Z) : Z := z mod 256.

(** Conversion to [int32_t] and to [uint32_t]. *)
Definition wrap_int32 (z : Z) : Z := (z + 2147483648) mod 4294967296 - 2147483648.
Definition wrap_uint32 (z : Z) : Z := z mod 4294967296.

(** ** Data model *)

Inductive Direction := UP | DOWN | LEFT | RIGHT.
Inductive Turn := TURN_NONE | TURN_LEFT | TURN_RIGHT.
Inductive GameStatus := ONGOING | WON | LOST.
Inductive StepOutcome := MOVE | EAT | COLLISION | FULL.

Record Coords := mkCoords { row : Z; col : Z }.

Record Snake := mkSnake {
  head : Coords;
  tail : list Coords;
  tailLength : Z;
  direction : Direction
}.

Record Game := mkGame {
  snake : Snake;
  foodCoords : Coords;
  speed : Z;
  status : GameStatus;
  score : Z
}.

(** The two globals of the program. *)
Record World := mkWorld {
  game : Game;
  currentTurn : Turn
}.

#[global] Instance Direction_eq_dec : EqDecision Direction.
Proof. solve_decision. Defined.
#[global] Instance Turn_eq_dec : EqDecision Turn.
Proof. solve_decision. Defined.
#[global] Instance GameStatus_eq_dec : EqDecision GameStatus.
Proof. solve_decision. Defined.
#[global] Instance StepOutcome_eq_dec : EqDecision StepOutcome.
Proof. solve_decision. Defined.
#[global] Instance Coords_eq_dec : EqDecision Coords.
Proof. solve_decision. Defined.

(** Field updates, one per assignment form used by the program. *)
Definition set_head (c : Coords) (s : Snake) : Snake :=
  mkSnake c (tail s) (tailLength s) (direction s).
Definition set_tail (t : list Coords) (s : Snake) : Snake :=
  mkSnake (head s) t (tailLength s) (direction s).
Definition set_tailLength (n : Z) (s : Snake) : Snake :=
  mkSnake (head s) (tail s) n (direction s).
Definition set_direction (d : Direction) (s : Snake) : Snake :=
  mkSnake (head s) (tail s) (tailLength s) d.

Definition set_snake (s : Snake) (g : Game) : Game :=
  mkGame s (foodCoords g) (speed g) (status g) (score g).
Definition set_foodCoords (c : Coords) (g : Game) : Game :=
  mkGame (snake g) c (speed g) (status g) (score g).
Definition set_speed (v : Z) (g : Game) : Game :=
  mkGame (snake g) (foodCoords g) v (status g) (score g).
Definition set_status (st : GameStatus) (g : Game) : Game :=
  mkGame (snake g) (foodCoords g) (speed g) st (score g).
Definition set_score (v : Z) (g : Game) : Game :=
  mkGame (snake g) (foodCoords g) (speed g) (status g) v.

(** ** Results of operations that can fault

    An access to [tail] outside [0, MAX_SNAKE_LENGTH) is undefined behaviour
    in C and is reported as [OutOfBounds].  A call of [rand()] when the tape
    of random values is used up is [RandExhausted]: the sampling loop of
    [getRandomCoords] has no bound of its own. *)

Inductive result (A : Type) : Type :=
| Ok (a : A)
| OutOfBounds
| RandExhausted.
Arguments Ok {A} a.
Arguments OutOfBounds {A}.
Arguments RandExhausted {A}.

Definition rbind {A B : Type} (m : result A) (k : A -> result B) : result B :=
  match m with
  | Ok a => k a
  | OutOfBounds => OutOfBounds
  | RandExhausted => RandExhausted
  end.

Notation "'do' x <- m ;; k" := (rbind m (fun x => k))
  (at level 10, x name, m at level 99, k at level 200).
Notation "'do' ' p <- m ;; k" := (rbind m (fun p => k))
  (at level 10, p pattern, m at level 99, k at level 200).

(** [tail[i]] as an rvalue and as an lvalue. *)
Definition arr_get (t : list Coords) (i : Z) : result Coords :=
  if bool_decide (0 <= i < MAX_SNAKE_LENGTH) then
    match t !! Z.to_nat i with
    | Some c => Ok c
    | None => OutOfBounds
    end
  else OutOfBounds.

Definition arr_set (t : list Coords) (i : Z) (c : Coords) : result (list Coords) :=
  if bool_decide (0 <= i < MAX_SNAKE_LENGTH) then
    if bool_decide (Z.to_nat i < length t)%nat then Ok (<[Z.to_nat i := c]> t)
    else OutOfBounds
  else OutOfBounds.

(** ** Game logic *)

Definition coordsEqual (a b : Coords) : bool :=
  (row a =? row b) && (col a =? col b).

(** The loop of [coordsInSnake]: [n] iterations remain, the index is [i]. *)
Fixpoint coordsInSnake_loop (n : nat) (i : Z) (coords : Coords)
    (t : list Coords) : result bool :=
  match n with
  | O => Ok false
  | S n' =>
      do c <- arr_get t i ;;
      if coordsEqual coords c then Ok true
      else coordsInSnake_loop n' (i + 1) coords t
  end.

Definition coordsInSnake (coords : Coords) (g : Game) : result bool :=
  if coordsEqual coords (head (snake g)) then Ok true
  else coordsInSnake_loop (Z.to_nat (tailLength (snake g))) 0 coords
         (tail (snake g)).

(** [rand() % GRID_SIZE] stored into an [int8_t] field. *)
Definition rand_cell (r : N) : Z := wrap_int8 (Z.rem (Z.of_N r) GRID_SIZE).

(** The do-while loop of [getRandomCoords]; every round takes two values
    from the tape, the row first. *)
Fixpoint getRandomCoords (tape : list N) (g : Game) : result (Coords * list N) :=
  match tape with
  | r :: c :: tape' =>
      let coords := mkCoords (rand_cell r) (rand_cell c) in
      do b <- coordsInSnake coords g ;;
      if b then getRandomCoords tape' g else Ok (coords, tape')
  | _ => RandExhausted
  end.

Definition placeFood (tape : list N) (g : Game) : result (Game * list N) :=
  do '(c, tape') <- getRandomCoords tape g ;;
  Ok (set_foodCoords c g, tape').

Definition initGame (tape : list N) (g : Game) : result (Game * list N) :=
  let s := snake g in
  let s := set_head (mkCoords 2 2) s in
  do t <- arr_set (tail s) 0 (mkCoords 2 1) ;;
  let s := set_tail t s in
  let s := set_tailLength 1 s in
  let s := set_direction RIGHT s in
  let g := set_snake s g in
  let g := set_speed 1 g in
  let g := set_status ONGOING g in
  let g := set_score 0 g in
  placeFood tape g.

Definition resetGame (tape : list N) (w : World) : result (World * list N) :=
  do '(g, tape') <- initGame tape (game w) ;;
  Ok (mkWorld g TURN_NONE, tape').

Definition wraparound (coords : Coords) : Coords :=
  let r :=
    if row coords <? 0 then GRID_SIZE - 1
    else if row coords >=? GRID_SIZE then 0
    else row coords in
  let c :=
    if col coords <? 0 then GRID_SIZE - 1
    else if col coords >=? GRID_SIZE then 0
    else col coords in
  mkCoords r c.

Definition isOutOfBounds (coords : Coords) : bool :=
  (row coords <? 0) || (row coords >=? GRID_SIZE) ||
  (col coords <? 0) || (col coords >=? GRID_SIZE).

Definition getNextMove (g : Game) : Coords :=
  let h := head (snake g) in
  let nextMove :=
    match direction (snake g) with
    | UP => mkCoords (wrap_int8 (row h - 1)) (col h)
    | DOWN => mkCoords (wrap_int8 (row h + 1)) (col h)
    | LEFT => mkCoords (row h) (wrap_int8 (col h - 1))
    | RIGHT => mkCoords (row h) (wrap_int8 (col h + 1))
    end in
  if isOutOfBounds nextMove then wraparound nextMove else nextMove.

Definition getStepOutcome (g : Game) : result StepOutcome :=
  let nextMove := getNextMove g in
  do inSnake <- coordsInSnake nextMove g ;;
  do collides <-
    (if inSnake then
       do t0 <- arr_get (tail (snake g)) 0 ;;
       Ok (negb (coordsEqual nextMove t0))
     else Ok false) ;;
  if collides then Ok COLLISION
  else if coordsEqual nextMove (foodCoords g) then
    if tailLength (snake g) >=? MAX_SNAKE_LENGTH - 1 then Ok FULL
    else Ok EAT
  else Ok MOVE.

(** First loop of [moveSnake]: [tail[i] = tail[i + 1]] for ascending [i]. *)
Fixpoint shift_down (n : nat) (i : Z) (t : list Coords) : result (list Coords) :=
  match n with
  | O => Ok t
  | S n' =>
      do c <- arr_get t (i + 1) ;;
      do t' <- arr_set t i c ;;
      shift_down n' (i + 1) t'
  end.

(** Second loop of [moveSnake]: [tail[i] = tail[i - 1]] for descending [i]. *)
Fixpoint shift_up (n : nat) (i : Z) (t : list Coords) : result (list Coords) :=
  match n with
  | O => Ok t
  | S n' =>
      do c <- arr_get t (i - 1) ;;
      do t' <- arr_set t i c ;;
      shift_up n' (i - 1) t'
  end.

Definition moveSnake (coords : Coords) (extend : bool) (g : Game) : result Game :=
  let s := snake g in
  do s' <-
    (if negb extend then
       do t <- shift_down (Z.to_nat (tailLength s - 1)) 0 (tail s) ;;
       do t <- arr_set t (tailLength s - 1) (head s) ;;
       Ok (set_tail t s)
     else
       do t <- shift_up (Z.to_nat (tailLength s)) (tailLength s) (tail s) ;;
       do t <- arr_set t 0 (head s) ;;
       Ok (set_tailLength (tailLength s + 1) (set_tail t s))) ;;
  Ok (set_snake (set_head coords s') g).

Definition handleStepOutcome (tape : list N) (outcome : StepOutcome) (g : Game)
    : result (Game * list N) :=
  let nextMove := getNextMove g in
  match outcome with
  | COLLISION => Ok (set_status LOST g, tape)
  | FULL =>
      do g <- moveSnake nextMove true g ;;
      Ok (set_status WON g, tape)
  | EAT =>
      do g <- moveSnake nextMove true g ;;
      do '(g, tape') <- placeFood tape g ;;
      let g := set_score (wrap_uint8 (score g + 1)) g in
      let g :=
        if Z.rem (score g) 5 =? 0 then set_speed (wrap_uint8 (speed g + 1)) g
        else g in
      Ok (g, tape')
  | MOVE =>
      do g <- moveSnake nextMove false g ;;
      Ok (g, tape)
  end.

Definition turnSnake (turn : Turn) (g : Game) : Game :=
  match turn with
  | TURN_LEFT =>
      match direction (snake g) with
      | UP => set_snake (set_direction LEFT (snake g)) g
      | DOWN => set_snake (set_direction RIGHT (snake g)) g
      | LEFT => set_snake (set_direction DOWN (snake g)) g
      | RIGHT => set_snake (set_direction UP (snake g)) g
      end
  | TURN_RIGHT =>
      match direction (snake g) with
      | UP => set_snake (set_direction RIGHT (snake g)) g
      | DOWN => set_snake (set_direction LEFT (snake g)) g
      | LEFT => set_snake (set_direction UP (snake g)) g
      | RIGHT => set_snake (set_direction DOWN (snake g)) g
      end
  | TURN_NONE => g
  end.

Definition stepGame (tape : list N) (w : World) : result (World * list N) :=
  let g := turnSnake (currentTurn w) (game w) in
  let turn := TURN_NONE in
  do outcome <- getStepOutcome g ;;
  do '(g, tape') <- handleStepOutcome tape outcome g ;;
  Ok (mkWorld g turn, tape').

Definition getStepLengthMs (g : Game) : Z :=
  let stepLength := wrap_int32 (1000 - wrap_int32 (200 * wrap_int32 (speed g - 1))) in
  let stepLength := if stepLength <? 200 then 200 else stepLength in
  wrap_uint32 stepLength.

(** ** Display

    The LED matrix is the external collaborator; the embedding records the
    calls made on it, in order. *)

Inductive DisplayOp :=
| Clear
| SetPixelValue (x y value : Z).

Fixpoint displayTail_loop (n : nat) (i : Z) (t : list Coords)
    : result (list DisplayOp) :=
  match n with
  | O => Ok []
  | S n' =>
      do c <- arr_get t i ;;
      do rest <- displayTail_loop n' (i + 1) t ;;
      Ok (SetPixelValue (col c) (row c) TAIL_BRIGHTNESS :: rest)
  end.

Definition displayGameState (g : Game) : result (list DisplayOp) :=
  let s := snake g in
  do tl <- displayTail_loop (Z.to_nat (tailLength s)) 0 (tail s) ;;
  Ok ([Clear; SetPixelValue (col (head s)) (row (head s)) HEAD_BRIGHTNESS]
        ++ tl
        ++ [SetPixelValue (col (foodCoords g)) (row (foodCoords g)) FOOD_BRIGHTNESS]).

(** [for (v = from; v < from + n; v++) body(v)], the bodies' writes in order. *)
Fixpoint for_up (n : nat) (from : Z) (body : Z -> list DisplayOp) : list DisplayOp :=
  match n with
  | O => []
  | S n' => body from ++ for_up n' (from + 1) body
  end.

Definition displayScore (g : Game) : list DisplayOp :=
  let fullRows := Z.quot (score g) 5 in
  let remainingCols := Z.rem (score g) 5 in
  for_up (Z.to_nat fullRows) 0 (fun row =>
    for_up 5 0 (fun col => [SetPixelValue col row 255]))
  ++ for_up (Z.to_nat remainingCols) 0 (fun col =>
       [SetPixelValue col fullRows 255]).

Definition handleButtonA (w : World) : World := mkWorld (game w) TURN_LEFT.
Definition handleButtonB (w : World) : World := mkWorld (game w) TURN_RIGHT.

(** ** The program's states

    [main] starts from the zero-initialised globals, calls [initGame], and
    then alternates steps (only while the status is [ONGOING]) and resets;
    the button handlers may run at any point in between.  A reset is allowed
    in every state, which covers the one [main] does after a finished
    round. *)

Definition boot : World :=
  mkWorld
    (mkGame (mkSnake (mkCoords 0 0) (replicate 24 (mkCoords 0 0)) 0 UP)
            (mkCoords 0 0) 0 ONGOING 0)
    TURN_NONE.

Inductive reachable : World -> Prop :=
| reach_main tape g tape' :
    initGame tape (game boot) = Ok (g, tape') ->
    reachable (mkWorld g (currentTurn boot))
| reach_buttonA w :
    reachable w -> reachable (handleButtonA w)
| reach_buttonB w :
    reachable w -> reachable (handleButtonB w)
| reach_step w tape w' tape' :
    reachable w -> status (game w) = ONGOING ->
    stepGame tape w = Ok (w', tape') ->
    reachable w'
| reach_reset w tape w' tape' :
    reachable w ->
    resetGame tape w = Ok (w', tape') ->
    reachable w'.

(** ** Views used by the statements *)

(** The cells the snake occupies: the head, then the first [tailLength]
    slots of [tail] in array order. *)
Definition tailCells (g : Game) : list Coords :=
  take (Z.to_nat (tailLength (snake g))) (tail (snake g)).

Definition occupied (g : Game) : list Coords :=
  head (snake g) :: tailCells g.

Definition inGrid (c : Coords) : Prop :=
  0 <= row c < GRID_SIZE /\ 0 <= col c < GRID_SIZE.

Definition pixelInGrid (op : DisplayOp) : Prop :=
  match op with
  | Clear => True
  | SetPixelValue x y _ => 0 <= x < GRID_SIZE /\ 0 <= y < GRID_SIZE
  end.

(** The array is whole and the tail count is within it. *)
Definition wellFormed (g : Game) : Prop :=
  length (tail (snake g)) = Z.to_nat MAX_SNAKE_LENGTH /\
  1 <= tailLength (snake g) <= MAX_SNAKE_LENGTH.

(** Closed forms of the two branches of [moveSnake]. *)
Definition afterMove (c : Coords) (g : Game) : Game :=
  let s := snake g in
  let n := Z.to_nat (tailLength s) in
  set_snake
    (set_head c
       (set_tail (drop 1 (take n (tail s)) ++ head s :: drop n (tail s)) s))
    g.

Definition afterExtend (c : Coords) (g : Game) : Game :=
  let s := snake g in
  let n := Z.to_nat (tailLength s) in
  set_snake
    (set_head c
       (set_tailLength (tailLength s + 1)
          (set_tail (head s :: take n (tail s) ++ drop (S n) (tail s)) s)))
    g.

(** Closed form of the [EAT] branch of [handleStepOutcome] once the sampler
    has returned the cell [f]. *)
Definition afterEat (f : Coords) (g : Game) : Game :=
  mkGame (snake (afterExtend (getNextMove g) g)) f
    (if (score g + 1) mod 5 =? 0 then speed g + 1 else speed g)
    (status g) (score g + 1).

(** The slot a move without extension gives up: the first loop of
    [moveSnake] overwrites [tail[0]] with [tail[1]]. *)
Definition vacated (g : Game) : option Coords := tail (snake g) !! 0%nat.

(** The candidate equals a cell of the snake other than the one about to be
    vacated. *)
Definition hitsSnake (g : Game) (candidate : Coords) : Prop :=
  exists x, x ∈ occupied g /\ Some x <> vacated g /\ candidate = x.

(** Closed form of [getStepOutcome]. *)
Definition outcomeOf (g : Game) : StepOutcome :=
  let c := getNextMove g in
  if bool_decide (c ∈ occupied g) && negb (bool_decide (Some c = vacated g))
  then COLLISION
  else if bool_decide (c = foodCoords g) then
    if bool_decide (MAX_SNAKE_LENGTH - 1 <= tailLength (snake g)) then FULL
    else EAT
  else MOVE.

#[global] Instance inGrid_dec c : Decision (inGrid c).
Proof. unfold inGrid. apply _. Defined.

(** What holds of the game in every state of the program. *)
Record invariant (g : Game) : Prop := mkInvariant {
  inv_wf : wellFormed g;
  inv_head : inGrid (head (snake g));
  inv_food : inGrid (foodCoords g);
  inv_tail : Forall inGrid (tail (snake g));
  inv_nodup : NoDup (occupied g);
  inv_status :
    match status g with
    | ONGOING =>
        tailLength (snake g) <= MAX_SNAKE_LENGTH - 1 /\
        score g = tailLength (snake g) - 1 /\
        foodCoords g ∉ occupied g
    | LOST =>
        tailLength (snake g) <= MAX_SNAKE_LENGTH - 1 /\
        score g = tailLength (snake g) - 1
    | WON =>
        tailLength (snake g) = MAX_SNAKE_LENGTH /\
        score g = MAX_SNAKE_LENGTH - 2
    end;
  inv_speed : speed g = 1 + score g / 5
}.

(** ** The algorithm as section 4.1 of the specification words it *)

(** One step from [h] in direction [d] on the torus: "a coordinate that goes
    below 0 on an axis becomes N-1 on that axis; a coordinate that reaches N
    becomes 0", each axis on its own. *)
Definition wrapAxis (v : Z) : Z :=
  if v <? 0 then GRID_SIZE - 1 else if v =? GRID_SIZE then 0 else v.

Definition torusStep (h : Coords) (d : Direction) : Coords :=
  match d with
  | UP => mkCoords (wrapAxis (row h - 1)) (wrapAxis (col h))
  | DOWN => mkCoords (wrapAxis (row h + 1)) (wrapAxis (col h))
  | LEFT => mkCoords (wrapAxis (row h)) (wrapAxis (col h - 1))
  | RIGHT => mkCoords (wrapAxis (row h)) (wrapAxis (col h + 1))
  end.

(** The turn table of section 4.1. *)
Definition turnTable (d : Direction) (t : Turn) : Direction :=
  match t, d with
  | TURN_NONE, _ => d
  | TURN_LEFT, UP => LEFT
  | TURN_LEFT, DOWN => RIGHT
  | TURN_LEFT, LEFT => DOWN
  | TURN_LEFT, RIGHT => UP
  | TURN_RIGHT, UP => RIGHT
  | TURN_RIGHT, DOWN => LEFT
  | TURN_RIGHT, LEFT => UP
  | TURN_RIGHT, RIGHT => DOWN
  end.

(** Movement mechanics over a tail sequence ordered nearest-to-head first:
    without extension "drop the trailing segment and insert the vacated head
    position at the front of the tail sequence"; with extension "the old head
    position is inserted at the front of the tail".  The result is the new
    head and the new tail sequence. *)
Definition specMove (h : Coords) (tl : list Coords) (candidate : Coords)
    (extend : bool) : Coords * list Coords :=
  if extend then (candidate, h :: tl)
  else (candidate, h :: removelast tl).

(** The engine's state in the data model of section 3.  The tail is the
    sequence of its segments "ordered from nearest-to-head-but-one down to
    the tail end", and the tail count is the length of that sequence.  Speed
    and score are plain integers. *)
Record Engine := mkEngine {
  engHead : Coords;
  engTail : list Coords;
  engDirection : Direction;
  engFood : Coords;
  engSpeed : Z;
  engStatus : GameStatus;
  engScore : Z;
  engPending : Turn
}.

(** Classification of the candidate cell, in the order of section 4.1.  A
    candidate on the snake (head or any tail cell) is a collision "EXCEPT
    when the candidate equals the single cell currently at the tail's
    trailing end", and that exception "only applies when the candidate is
    not the food cell and the snake is not about to extend"; the snake
    extends exactly when the candidate is the food cell.  Food reached is
    Full when tailLength >= MAX_SNAKE_LENGTH - 1. *)
Definition specClassify (e : Engine) (candidate : Coords) : StepOutcome :=
  let onSnake := bool_decide (candidate ∈ (engHead e :: engTail e)) in
  let onFood := bool_decide (candidate = engFood e) in
  let exempt :=
    bool_decide (last (engTail e) = Some candidate) && negb onFood in
  if onSnake && negb exempt then COLLISION
  else if onFood then
    if bool_decide (Z.of_nat (length (engTail e)) >= MAX_SNAKE_LENGTH - 1)
    then FULL
    else EAT
  else MOVE.

(** Random free-cell selection: "repeatedly sample a uniformly random cell
    in the N x N grid until one is found that is not occupied by the snake
    (head or any tail segment)".  A sample takes two values of the random
    source, the row first. *)
Fixpoint specSample (tape : list N) (cells : list Coords)
    : result (Coords * list N) :=
  match tape with
  | r :: k :: tape' =>
      let c := mkCoords (Z.of_N r mod GRID_SIZE) (Z.of_N k mod GRID_SIZE) in
      if bool_decide (c ∈ cells) then specSample tape' cells
      else Ok (c, tape')
  | _ => RandExhausted
  end.

(** The step algorithm of section 4.1, computing the candidate once: apply
    the pending turn by the turn table and clear it, take one step on the
    torus, classify the candidate and branch.  A collision sets the status
    to LOST with "no further mutation this tick"; Full extends and sets the
    status to WON; food extends, places new food on a free cell, adds 1 to
    the score and 1 to the speed "every time score becomes a multiple of
    5"; a plain move moves without growing. *)
Definition specStep (tape : list N) (e : Engine) : result (Engine * list N) :=
  let d := turnTable (engDirection e) (engPending e) in
  let candidate := torusStep (engHead e) d in
  match specClassify e candidate with
  | COLLISION =>
      Ok (mkEngine (engHead e) (engTail e) d (engFood e) (engSpeed e) LOST
            (engScore e) TURN_NONE, tape)
  | FULL =>
      let m := specMove (engHead e) (engTail e) candidate true in
      Ok (mkEngine (fst m) (snd m) d (engFood e) (engSpeed e) WON
            (engScore e) TURN_NONE, tape)
  | EAT =>
      let m := specMove (engHead e) (engTail e) candidate true in
      do '(food, tape') <- specSample tape (fst m :: snd m) ;;
      let sc := engScore e + 1 in
      let sp := if sc mod 5 =? 0 then engSpeed e + 1 else engSpeed e in
      Ok (mkEngine (fst m) (snd m) d food sp (engStatus e) sc TURN_NONE, tape')
  | MOVE =>
      let m := specMove (engHead e) (engTail e) candidate false in
      Ok (mkEngine (fst m) (snd m) d (engFood e) (engSpeed e) (engStatus e)
            (engScore e) TURN_NONE, tape)
  end.

(** queueTurn of section 4.1: LEFT or RIGHT overwrites the pending turn. *)
Definition specQueueTurn (t : Turn) (e : Engine) : Engine :=
  match t with
  | TURN_NONE => e
  | _ =>
      mkEngine (engHead e) (engTail e) (engDirection e) (engFood e)
        (engSpeed e) (engStatus e) (engScore e) t
  end.

(** Rounds of the host loop over the engine: a turn is queued (or none),
    then the engine steps; stepping stops at a terminal status. *)
Fixpoint specPlay (inputs : list (Turn * list N)) (e : Engine) : result Engine :=
  match inputs with
  | [] => Ok e
  | (t, tape) :: rest =>
      match engStatus e with
      | ONGOING =>
          do '(e', _) <- specStep tape (specQueueTurn t e) ;;
          specPlay rest e'
      | _ => Ok e
      end
  end.

(** The program's state read in that data model: the used slots of [tail],
    in array order, are the tail sequence ([initGame] puts the one segment
    into slot 0, and the extending branch of [moveSnake] puts the old head
    there). *)
Definition observe (w : World) : Engine :=
  let g := game w in
  mkEngine (head (snake g)) (tailCells g) (direction (snake g))
    (foodCoords g) (speed g) (status g) (score g) (currentTurn w).

(** One [stepGame], observed. *)
Definition observeStep (tape : list N) (w : World) : result (Engine * list N) :=
  do '(w', tape') <- stepGame tape w ;;
  Ok (observe w', tape').

(** ** Driving the program

    One round of the host loop as the environment sees it: a button press
    (or none) while the loop sleeps, then [stepGame] with the values [rand()]
    will return during that step.  The loop stops stepping once the status
    is no longer [ONGOING]. *)

Definition press (t : Turn) (w : World) : World :=
  match t with
  | TURN_NONE => w
  | TURN_LEFT => handleButtonA w
  | TURN_RIGHT => handleButtonB w
  end.

Fixpoint play (inputs : list (Turn * list N)) (w : World) : result World :=
  match inputs with
  | [] => Ok w
  | (t, tape) :: rest =>
      match status (game w) with
      | ONGOING =>
          do '(w', _) <- stepGame tape (press t w) ;;
          play rest w'
      | _ => Ok w
      end
  end.

(** The program's state after [main] has called [initGame]. *)
Definition start (tape : list N) : result World :=
  do '(g, _) <- initGame tape (game boot) ;;
  Ok (mkWorld g (currentTurn boot)).

(** The state after [initGame] when [rand()] first yields 0 and 0: the food
    lies in the corner (0,0). *)
Definition initialWorld : World :=
  mkWorld
    (mkGame
       (mkSnake (mkCoords 2 2) (mkCoords 2 1 :: replicate 23 (mkCoords 0 0)) 1
          RIGHT)
       (mkCoords 0 0) 1 ONGOING 0)
    TURN_NONE.

(** A round in which the food always appears right in front of the snake
    and the snake sweeps the whole grid: along row 2 and over the edge to
    (2,0), then rows 3, 4, 0 and 1 in a serpentine.  Each entry is the
    button pressed before the step and the cell [rand()] yields for the next
    food (row, then column). *)
Definition sweepFood : list N := [2; 3]%N.

Definition sweep : list (Turn * list N) :=
  [ (TURN_NONE, [2; 4]); (TURN_NONE, [2; 0]); (TURN_NONE, [3; 0]);
    (TURN_RIGHT, [3; 1]); (TURN_LEFT, [3; 2]); (TURN_NONE, [3; 3]);
    (TURN_NONE, [3; 4]); (TURN_NONE, [4; 4]); (TURN_RIGHT, [4; 3]);
    (TURN_RIGHT, [4; 2]); (TURN_NONE, [4; 1]); (TURN_NONE, [4; 0]);
    (TURN_NONE, [0; 0]); (TURN_LEFT, [0; 1]); (TURN_LEFT, [0; 2]);
    (TURN_NONE, [0; 3]); (TURN_NONE, [0; 4]); (TURN_NONE, [1; 4]);
    (TURN_RIGHT, [1; 3]); (TURN_RIGHT, [1; 2]); (TURN_NONE, [1; 1]);
    (TURN_NONE, [1; 0]); (TURN_NONE, []) ]%N.

(** The state a run reaches: [initGame] with the values [food] on the tape,
    then the rounds [inputs]. *)
Definition run (food : list N) (inputs : list (Turn * list N)) : result World :=
  do w <- start food ;; play inputs w.

Definition worldAfter (food : list N) (inputs : list (Turn * list N)) : World :=
  match run food inputs with
  | Ok w => w
  | _ => boot
  end.

(** The snake has eaten once: head (2,3), tail slots (2,2), (2,1), and the
    next food is in the corner (0,0). *)
Definition eatenOnce : list (Turn * list N) := [ (TURN_NONE, [0; 0]%N) ].
Definition eatenWorld : World := Eval vm_compute in worldAfter sweepFood eatenOnce.

(** The snake has eaten twice and then turned right three times; it lies
    around a square of four cells, with the head at (2,3) and the oldest
    segment at (2,4).  A fourth right turn is pending. *)
Definition chase : list (Turn * list N) :=
  [ (TURN_NONE, [2; 4]); (TURN_NONE, [0; 0]); (TURN_RIGHT, []);
    (TURN_RIGHT, []); (TURN_RIGHT, []) ]%N.
Definition chaseWorld : World :=
  Eval vm_compute in handleButtonB (worldAfter sweepFood chase).

(** The snake has eaten twice while turning right: it lies along
    (2,1), (2,2), (3,2) with the head at (3,1), and a third right turn is
    pending, towards its oldest segment (2,1). *)
Definition corner : list (Turn * list N) :=
  [ (TURN_RIGHT, [3; 1]); (TURN_RIGHT, [0; 0]) ]%N.
Definition cornerWorld : World :=
  Eval vm_compute in handleButtonB (worldAfter [3; 2]%N corner).

(** The sweep one round and two rounds before its end, and at its end. *)
Definition sweepWorld21 : World :=
  Eval vm_compute in worldAfter sweepFood (take 21 sweep).
Definition sweepWorld22 : World :=
  Eval vm_compute in worldAfter sweepFood (take 22 sweep).
Definition sweepWorld23 : World :=
  Eval vm_compute in worldAfter sweepFood sweep.

(** All cells of the grid, row by row. *)
Definition gridCells : list Coords :=
  r ← seq 0 5; k ← seq 0 5; [mkCoords (Z.of_nat r) (Z.of_nat k)].

(** ** The host loop of [main]

    [main] draws the game, sleeps for the step length and steps, as long as
    the status is [ONGOING]; then it flashes the final state three times,
    shows the score, and resets.  The display and the sleeps are the loop's
    effects; the embedding records them in order.  The rounds of the inner
    loop are driven by the same inputs as [play]: the button pressed while
    the loop sleeps, and the values [rand()] yields during the step. *)

Inductive HostEvent :=
| OnDisplay (op : DisplayOp)
| Sleep (ms : Z).

Fixpoint gameLoop (inputs : list (Turn * list N)) (w : World)
    : result (list HostEvent * World) :=
  match inputs with
  | [] => Ok ([], w)
  | (t, tape) :: rest =>
      match status (game w) with
      | ONGOING =>
          do ops <- displayGameState (game w) ;;
          let ms := getStepLengthMs (game w) in
          do '(w', _) <- stepGame tape (press t w) ;;
          do '(events, w'') <- gameLoop rest w' ;;
          Ok ((OnDisplay <$> ops) ++ Sleep ms :: events, w'')
      | _ => Ok ([], w)
      end
  end.

(** The body of [for (int i = 0; i < 3; i++)] after the game loop, and the
    loop itself with [n] iterations to go. *)
Definition flash (w : World) : result (list HostEvent) :=
  do ops <- displayGameState (game w) ;;
  Ok ([OnDisplay Clear; Sleep 200] ++ (OnDisplay <$> ops) ++ [Sleep 200]).

Fixpoint flashes (n : nat) (w : World) : result (list HostEvent) :=
  match n with
  | O => Ok []
  | S n' =>
      do first <- flash w ;;
      do others <- flashes n' w ;;
      Ok (first ++ others)
  end.

Definition gameOver (tape : list N) (w : World)
    : result (list HostEvent * World * list N) :=
  do fl <- flashes 3 w ;;
  let scoreEvents :=
    OnDisplay Clear :: (OnDisplay <$> displayScore (game w)) ++ [Sleep 2000] in
  do '(w', tape') <- resetGame tape w ;;
  Ok (fl ++ scoreEvents, w', tape').

(** ** Further views *)

Definition opposite (d : Direction) : Direction :=
  match d with
  | UP => DOWN
  | DOWN => UP
  | LEFT => RIGHT
  | RIGHT => LEFT
  end.

(** The cell a call on the display writes: [setPixelValue(x, y, v)] has the
    column first. *)
Definition pixelCell (op : DisplayOp) : option Coords :=
  match op with
  | Clear => None
  | SetPixelValue x y _ => Some (mkCoords y x)
  end.

Definition pixelCells (ops : list DisplayOp) : list Coords :=
  omap pixelCell ops.

(** The sleeps of a trace, in order. *)
Definition sleepsOf (events : list HostEvent) : list Z :=
  omap (fun e => match e with Sleep ms => Some ms | OnDisplay _ => None end)
       events.

(** The display calls of a trace, in order. *)
Definition drawsOf (events : list HostEvent) : list DisplayOp :=
  omap (fun e => match e with OnDisplay op => Some op | Sleep _ => None end)
       events.

#[global] Instance pixelInGrid_dec op : Decision (pixelInGrid op).
Proof. destruct op; unfold pixelInGrid; apply _. Defined.

(** The closed form of [displayGameState]: clear, the head, the used tail
    slots in array order, the food. *)
Definition frameOf (g : Game) : list DisplayOp :=
  Clear
  :: SetPixelValue (col (head (snake g))) (row (head (snake g))) HEAD_BRIGHTNESS
  :: ((fun c => SetPixelValue (col c) (row c) TAIL_BRIGHTNESS) <$> tailCells g)
  ++ [SetPixelValue (col (foodCoords g)) (row (foodCoords g)) FOOD_BRIGHTNESS].

(** The [n]-th pixel of the score display, counting from 0: five to a
    row, from the top row down. *)
Definition scorePixel (n : nat) : DisplayOp :=
  SetPixelValue (Z.of_nat n mod 5) (Z.of_nat n / 5) 255.

(** Every cell of the grid is part of the snake. *)
Definition gridFull (g : Game) : Prop :=
  forall c, inGrid c -> c ∈ occupied g.

(** * Proofs *)

(** ** Accessors and loops in terms of list operations *)

Lemma coordsEqual_true a b : coordsEqual a b = true <-> a = b.
Proof.
  unfold coordsEqual. destruct a as [r1 c1], b as [r2 c2]; simpl.
  rewrite andb_true_iff, !Z.eqb_eq. split; [intros []; congruence|].
  intros [= -> ->]; done.
Qed.

Lemma coordsEqual_decide a b : coordsEqual a b = bool_decide (a = b).
Proof.
  destruct (coordsEqual a b) eqn:E; symmetry.
  - apply bool_decide_eq_true, coordsEqual_true, E.
  - apply bool_decide_eq_false. intros H%coordsEqual_true. congruence.
Qed.

Lemma arr_get_lookup (t : list Coords) (k : nat) c :
  t !! k = Some c -> (k < 24)%nat -> arr_get t (Z.of_nat k) = Ok c.
Proof.
  intros Hk Hlt. unfold arr_get, MAX_SNAKE_LENGTH.
  rewrite bool_decide_eq_true_2 by lia. rewrite Nat2Z.id, Hk. done.
Qed.

Lemma arr_set_insert (t : list Coords) (k : nat) c :
  (k < length t)%nat -> (k < 24)%nat ->
  arr_set t (Z.of_nat k) c = Ok (<[k := c]> t).
Proof.
  intros Hk Hlt. unfold arr_set, MAX_SNAKE_LENGTH.
  rewrite bool_decide_eq_true_2 by lia. rewrite Nat2Z.id.
  rewrite bool_decide_eq_true_2 by lia. done.
Qed.

Lemma coordsInSnake_loop_spec (n k : nat) (t : list Coords) c :
  (k + n <= length t)%nat -> (k + n <= 24)%nat ->
  coordsInSnake_loop n (Z.of_nat k) c t
  = Ok (bool_decide (c ∈ take n (drop k t))).
Proof.
  revert k. induction n as [|n IH]; intros k Hlen Hmax;
    cbn [coordsInSnake_loop].
  - rewrite take_0, bool_decide_eq_false_2; [done|]. apply not_elem_of_nil.
  - destruct (lookup_lt_is_Some_2 t k) as [x Hx]; [lia|].
    rewrite (arr_get_lookup _ _ _ Hx) by lia. cbn [rbind].
    rewrite (drop_S _ _ _ Hx), firstn_cons.
    rewrite coordsEqual_decide.
    replace (Z.of_nat k + 1) with (Z.of_nat (S k)) by lia.
    case_bool_decide as Hc.
    + subst. rewrite bool_decide_eq_true_2; [done|]. apply elem_of_cons; auto.
    + rewrite IH by lia. f_equal. apply bool_decide_ext.
      rewrite elem_of_cons. tauto.
Qed.

Lemma coordsInSnake_spec c g :
  wellFormed g -> coordsInSnake c g = Ok (bool_decide (c ∈ occupied g)).
Proof.
  intros [Hlen Hn]. unfold coordsInSnake, occupied, tailCells.
  rewrite coordsEqual_decide. unfold MAX_SNAKE_LENGTH in *.
  case_bool_decide as Hc.
  - subst. rewrite bool_decide_eq_true_2; [done|]. apply elem_of_cons; auto.
  - rewrite (coordsInSnake_loop_spec _ 0) by (simpl; lia).
    rewrite drop_0. f_equal. apply bool_decide_ext.
    rewrite elem_of_cons. tauto.
Qed.

Lemma shift_down_spec (n k : nat) (t : list Coords) :
  (k + n < length t)%nat -> (k + n < 24)%nat ->
  shift_down n (Z.of_nat k) t
  = Ok (take k t ++ take n (drop (S k) t) ++ drop (k + n) t).
Proof.
  revert k t. induction n as [|n IH]; intros k t Hlen Hmax; cbn [shift_down].
  - rewrite take_0, Nat.add_0_r. cbn [app]. by rewrite take_drop.
  - destruct (lookup_lt_is_Some_2 t (S k)) as [x Hx]; [lia|].
    replace (Z.of_nat k + 1) with (Z.of_nat (S k)) by lia.
    rewrite (arr_get_lookup _ _ _ Hx) by lia. cbn [rbind].
    rewrite arr_set_insert by lia. cbn [rbind].
    rewrite IH by (rewrite ?length_insert; lia). f_equal.
    rewrite (take_S_r _ k x) by (apply list_lookup_insert_eq; lia).
    rewrite take_insert_ge by lia.
    rewrite !drop_insert_lt by lia.
    rewrite (drop_S _ _ _ Hx), firstn_cons.
    rewrite <- app_assoc. cbn [app].
    by replace (S k + n)%nat with (k + S n)%nat by lia.
Qed.

Lemma shift_up_spec (n j : nat) (t : list Coords) :
  (j + n < length t)%nat -> (j + n < 24)%nat ->
  shift_up n (Z.of_nat (j + n)) t
  = Ok (take (S j) t ++ take n (drop j t) ++ drop (S (j + n)) t).
Proof.
  revert t. induction n as [|n IH]; intros t Hlen Hmax; cbn [shift_up].
  - rewrite take_0, Nat.add_0_r. cbn [app]. by rewrite take_drop.
  - destruct (lookup_lt_is_Some_2 t (j + n)) as [x Hx]; [lia|].
    destruct (lookup_lt_is_Some_2 t (j + S n)) as [y Hy]; [lia|].
    replace (Z.of_nat (j + S n) - 1) with (Z.of_nat (j + n)) by lia.
    rewrite (arr_get_lookup _ _ _ Hx) by lia. cbn [rbind].
    rewrite arr_set_insert by lia. cbn [rbind].
    rewrite IH by (rewrite ?length_insert; lia). f_equal.
    rewrite take_insert_ge by lia.
    rewrite (take_drop_commute (<[_ := _]> _)), take_insert_ge by lia.
    rewrite <- take_drop_commute.
    rewrite (take_S_r (drop j t) n x) by (by rewrite lookup_drop).
    replace (S (j + n)) with (j + S n)%nat by lia.
    rewrite drop_insert_ge, Nat.sub_diag by lia.
    rewrite (drop_S _ _ _ Hy). cbn [insert list_insert].
    by rewrite <- !app_assoc.
Qed.

(** [moveSnake] without extension: slot 0 is dropped, the old head is
    written behind the last used slot. *)
Lemma moveSnake_move_spec c g :
  wellFormed g -> moveSnake c false g = Ok (afterMove c g).
Proof.
  intros [Hlen Hn]. unfold afterMove, moveSnake, MAX_SNAKE_LENGTH in *.
  cbv zeta.
  set (s := snake g) in *. set (n := Z.to_nat (tailLength s)).
  cbn [negb].
  assert (Hn' : (1 <= n <= 24)%nat) by (subst n; lia).
  replace (tailLength s - 1) with (Z.of_nat (n - 1)) by (subst n; lia).
  rewrite Nat2Z.id.
  rewrite (shift_down_spec _ 0) by (simpl; lia).
  cbn [rbind]. rewrite take_0. cbn [app Nat.add].
  destruct (lookup_lt_is_Some_2 (tail s) (n - 1)) as [y Hy]; [lia|].
  rewrite arr_set_insert
    by (rewrite ?length_app, ?length_take, ?length_drop; lia).
  cbn [rbind]. do 3 f_equal.
  rewrite insert_app_r_alt by (rewrite length_take, length_drop; lia).
  rewrite length_take, length_drop.
  replace (n - 1 - (n - 1) `min` (length (tail s) - 1))%nat with 0%nat by lia.
  rewrite (drop_S _ _ _ Hy). cbn [insert list_insert].
  rewrite take_drop_commute.
  by replace (1 + (n - 1))%nat with n by lia; replace (S (n - 1)) with n by lia.
Qed.

(** [moveSnake] with extension: the old head is written into slot 0 in
    front of the used slots. *)
Lemma moveSnake_extend_spec c g :
  wellFormed g -> tailLength (snake g) <= MAX_SNAKE_LENGTH - 1 ->
  moveSnake c true g = Ok (afterExtend c g).
Proof.
  intros [Hlen Hn] Hmax. unfold afterExtend, moveSnake, MAX_SNAKE_LENGTH in *.
  cbv zeta.
  set (s := snake g) in *. set (n := Z.to_nat (tailLength s)).
  cbn [negb].
  assert (Hn' : (1 <= n <= 23)%nat) by (subst n; lia).
  replace (shift_up n (tailLength s)) with (shift_up n (Z.of_nat (0 + n)))
    by (f_equal; subst n; lia).
  rewrite shift_up_spec by lia. cbn [rbind].
  destruct (lookup_lt_is_Some_2 (tail s) 0) as [y Hy]; [lia|].
  rewrite (take_S_r _ 0 y Hy), take_0, drop_0. cbn [app Nat.add].
  change 0 with (Z.of_nat 0).
  rewrite arr_set_insert by (cbn [length]; lia). cbn [rbind].
  done.
Qed.

(** ** The cells of the snake after a move *)

Lemma tailCells_afterMove c g :
  wellFormed g ->
  tailCells (afterMove c g) = drop 1 (tailCells g) ++ [head (snake g)].
Proof.
  intros [Hlen Hn]. unfold tailCells, afterMove, MAX_SNAKE_LENGTH in *.
  cbn. set (n := Z.to_nat (tailLength (snake g))).
  assert (Hn' : (1 <= n <= 24)%nat) by (subst n; lia).
  rewrite take_app, length_drop, length_take.
  rewrite take_ge by (rewrite length_drop, length_take; lia).
  replace (n - (n `min` length (tail (snake g)) - 1))%nat with 1%nat by lia.
  done.
Qed.

Lemma tailCells_afterExtend c g :
  wellFormed g -> tailLength (snake g) <= MAX_SNAKE_LENGTH - 1 ->
  tailCells (afterExtend c g) = head (snake g) :: tailCells g.
Proof.
  intros [Hlen Hn] Hmax. unfold tailCells, afterExtend, MAX_SNAKE_LENGTH in *.
  cbn. set (n := Z.to_nat (tailLength (snake g))).
  assert (Hn' : (1 <= n <= 23)%nat) by (subst n; lia).
  replace (Z.to_nat (tailLength (snake g) + 1)) with (S n) by (subst n; lia).
  rewrite firstn_cons. f_equal.
  rewrite take_app_le by (rewrite length_take; lia).
  rewrite take_take. f_equal. lia.
Qed.

Lemma wellFormed_afterMove c g : wellFormed g -> wellFormed (afterMove c g).
Proof.
  intros [Hlen Hn]. split; [|done]. unfold afterMove, MAX_SNAKE_LENGTH in *.
  cbn [snake tail set_snake set_head set_tail].
  rewrite length_app, length_drop, length_take. cbn [length].
  rewrite length_drop. lia.
Qed.

Lemma wellFormed_afterExtend c g :
  wellFormed g -> tailLength (snake g) <= MAX_SNAKE_LENGTH - 1 ->
  wellFormed (afterExtend c g).
Proof.
  intros [Hlen Hn] Hmax. unfold wellFormed, afterExtend, MAX_SNAKE_LENGTH in *.
  split; cbn; [|lia].
  rewrite length_app, length_drop, length_take. lia.
Qed.

Lemma inGrid_tail_afterMove c g :
  inGrid (head (snake g)) -> Forall inGrid (tail (snake g)) ->
  Forall inGrid (tail (snake (afterMove c g))).
Proof.
  intros Hh Ht. unfold afterMove. cbn.
  apply Forall_app. split.
  - by apply Forall_drop, Forall_take.
  - apply Forall_cons. split; [done|]. by apply Forall_drop.
Qed.

Lemma inGrid_tail_afterExtend c g :
  inGrid (head (snake g)) -> Forall inGrid (tail (snake g)) ->
  Forall inGrid (tail (snake (afterExtend c g))).
Proof.
  intros Hh Ht. unfold afterExtend. cbn.
  apply Forall_cons. split; [done|].
  apply Forall_app. split; [by apply Forall_take | by apply Forall_drop].
Qed.

(** The first used slot is the first element of [tailCells]. *)
Lemma tailCells_vacated g :
  wellFormed g ->
  exists t0, vacated g = Some t0 /\ tailCells g = t0 :: drop 1 (tailCells g).
Proof.
  intros [Hlen Hn]. unfold vacated, tailCells, MAX_SNAKE_LENGTH in *.
  destruct (tail (snake g)) as [|t0 rest]; [simpl in Hlen; lia|].
  exists t0. split; [done|].
  destruct (Z.to_nat (tailLength (snake g))) as [|n] eqn:E; [lia|].
  cbn. by rewrite drop_0.
Qed.

(** ** Coordinates *)

Lemma inGrid_cases c :
  inGrid c ->
  exists r k, c = mkCoords (Z.of_nat r) (Z.of_nat k) /\ (r < 5)%nat /\ (k < 5)%nat.
Proof.
  destruct c as [r k]. unfold inGrid, GRID_SIZE. cbn. intros [Hr Hk].
  exists (Z.to_nat r), (Z.to_nat k). rewrite !Z2Nat.id by lia.
  split; [done|lia].
Qed.

Lemma getNextMove_torus g :
  inGrid (head (snake g)) ->
  getNextMove g = torusStep (head (snake g)) (direction (snake g)) /\
  inGrid (getNextMove g).
Proof.
  intros (r & k & Hh & Hr & Hk)%inGrid_cases.
  unfold getNextMove. rewrite Hh. clear Hh.
  destruct (direction (snake g));
    do 5 (try (destruct r as [|r]; [|try lia]));
    do 5 (try (destruct k as [|k]; [|try lia]));
    try lia; (split; [reflexivity | by vm_compute]).
Qed.

Lemma rand_cell_range r : 0 <= rand_cell r < GRID_SIZE.
Proof.
  unfold rand_cell, wrap_int8, GRID_SIZE.
  pose proof (Z.rem_bound_pos (Z.of_N r) 5 ltac:(lia) ltac:(lia)) as H.
  rewrite Z.mod_small by lia. lia.
Qed.

Lemma rand_cell_mod v : rand_cell v = Z.of_N v mod GRID_SIZE.
Proof.
  unfold rand_cell, wrap_int8, GRID_SIZE.
  pose proof (Z.rem_bound_pos (Z.of_N v) 5 ltac:(lia) ltac:(lia)).
  rewrite Z.mod_small by lia. rewrite Z.rem_mod_nonneg by lia. lia.
Qed.

(** The sampler returns, when it returns, a cell of the grid that the snake
    does not occupy. *)
Lemma getRandomCoords_spec tape g c tape' :
  wellFormed g ->
  getRandomCoords tape g = Ok (c, tape') ->
  inGrid c /\ c ∉ occupied g.
Proof.
  intros Hwf. remember (length tape) as n eqn:Hn. revert tape Hn.
  induction n as [n IH] using lt_wf_ind. intros tape Hn.
  destruct tape as [|r [|k rest]]; cbn [getRandomCoords]; try done.
  rewrite coordsInSnake_spec by done. cbn [rbind].
  case_bool_decide as Hin.
  - apply (IH (length rest)); [subst n; cbn; lia | done].
  - intros [= <- <-]. split; [|done].
    split; cbn; apply rand_cell_range.
Qed.

(** A tape whose first two values name a free cell makes the sampler return
    that cell at once. *)
Lemma getRandomCoords_free g (r k : nat) tape :
  wellFormed g -> (r < 5)%nat -> (k < 5)%nat ->
  mkCoords (Z.of_nat r) (Z.of_nat k) ∉ occupied g ->
  getRandomCoords (N.of_nat r :: N.of_nat k :: tape) g
  = Ok (mkCoords (Z.of_nat r) (Z.of_nat k), tape).
Proof.
  intros Hwf Hr Hk Hfree. cbn [getRandomCoords].
  assert (Hc : forall v, (v < 5)%nat -> rand_cell (N.of_nat v) = Z.of_nat v).
  { intros v Hv. unfold rand_cell, wrap_int8, GRID_SIZE.
    rewrite nat_N_Z, Z.rem_small by lia. rewrite Z.mod_small by lia. lia. }
  rewrite !Hc by done.
  rewrite coordsInSnake_spec by done. cbn [rbind].
  by rewrite bool_decide_eq_false_2.
Qed.

(** ** Classification *)

Lemma hitsSnake_iff g c :
  hitsSnake g c <-> c ∈ occupied g /\ Some c <> vacated g.
Proof.
  unfold hitsSnake. split.
  - intros (x & Hx & Hv & ->). done.
  - intros [Hx Hv]. by exists c.
Qed.

Lemma getStepOutcome_spec g :
  wellFormed g -> getStepOutcome g = Ok (outcomeOf g).
Proof.
  intros Hwf. unfold getStepOutcome, outcomeOf. cbv zeta.
  rewrite coordsInSnake_spec by done. cbn [rbind].
  destruct (tailCells_vacated g Hwf) as (t0 & Hv & _).
  assert (Hget : arr_get (tail (snake g)) 0 = Ok t0).
  { apply (arr_get_lookup _ 0%nat); [exact Hv | lia]. }
  rewrite Hv.
  case_bool_decide as Hin; cbn [rbind andb].
  - rewrite Hget. cbn [rbind]. rewrite coordsEqual_decide.
    assert (Hb : bool_decide (getNextMove g = t0)
                 = bool_decide (Some (getNextMove g) = Some t0)).
    { apply bool_decide_ext. split; [congruence | by intros [= ->]]. }
    rewrite Hb. destruct (bool_decide (Some _ = Some t0)); cbn [negb]; [|done].
    rewrite coordsEqual_decide. unfold MAX_SNAKE_LENGTH.
    repeat case_bool_decide; try done; destruct (_ >=? _) eqn:E; try done; lia.
  - rewrite coordsEqual_decide. unfold MAX_SNAKE_LENGTH.
    repeat case_bool_decide; try done; destruct (_ >=? _) eqn:E; try done; lia.
Qed.

(** ** Turning *)

Lemma turnSnake_spec t g :
  turnSnake t g
  = set_snake (set_direction (turnTable (direction (snake g)) t) (snake g)) g.
Proof.
  destruct g as [[h tl n d] f sp st sc].
  by destruct t, d.
Qed.

Lemma occupied_turnSnake t g : occupied (turnSnake t g) = occupied g.
Proof. by rewrite turnSnake_spec. Qed.

Lemma invariant_turnSnake t g : invariant g -> invariant (turnSnake t g).
Proof. rewrite turnSnake_spec. by intros []. Qed.

(** ** The four branches of a step *)

Lemma occupied_afterExtend c g :
  wellFormed g -> tailLength (snake g) <= MAX_SNAKE_LENGTH - 1 ->
  occupied (afterExtend c g) = c :: occupied g.
Proof.
  intros Hwf Hmax. unfold occupied at 1.
  by rewrite tailCells_afterExtend.
Qed.

Lemma occupied_afterMove c g :
  wellFormed g ->
  occupied (afterMove c g) = c :: drop 1 (tailCells g) ++ [head (snake g)].
Proof.
  intros Hwf. unfold occupied at 1. by rewrite tailCells_afterMove.
Qed.

Lemma stepGame_cases tape w :
  invariant (game w) -> status (game w) = ONGOING ->
  let g := turnSnake (currentTurn w) (game w) in
  let c := getNextMove g in
  match outcomeOf g with
  | COLLISION =>
      hitsSnake g c /\
      stepGame tape w = Ok (mkWorld (set_status LOST g) TURN_NONE, tape)
  | FULL =>
      ~ hitsSnake g c /\ c = foodCoords g /\
      tailLength (snake g) = MAX_SNAKE_LENGTH - 1 /\
      stepGame tape w
      = Ok (mkWorld (set_status WON (afterExtend c g)) TURN_NONE, tape)
  | EAT =>
      ~ hitsSnake g c /\ c = foodCoords g /\
      tailLength (snake g) < MAX_SNAKE_LENGTH - 1 /\
      stepGame tape w
      = (do '(f, tape') <- getRandomCoords tape (afterExtend c g) ;;
         Ok (mkWorld (afterEat f g) TURN_NONE, tape'))
  | MOVE =>
      ~ hitsSnake g c /\ c <> foodCoords g /\
      stepGame tape w = Ok (mkWorld (afterMove c g) TURN_NONE, tape)
  end.
Proof.
  intros Hinv Hst g c.
  assert (Hinvg : invariant g) by by apply invariant_turnSnake.
  assert (Hstg : status g = ONGOING) by (subst g; by rewrite turnSnake_spec).
  destruct Hinvg as [Hwf Hhd Hfd Htl Hnd Hstat Hsp]. rewrite Hstg in Hstat.
  destruct Hstat as (Hmax & Hscore & Hfood).
  pose proof Hwf as [Hlen Hn].
  unfold stepGame. fold g. rewrite getStepOutcome_spec by done.
  cbn [rbind]. unfold outcomeOf. fold c.
  pose proof (hitsSnake_iff g c) as Hhit.
  destruct (bool_decide (c ∈ occupied g)) eqn:Hin;
    [destruct (bool_decide (Some c = vacated g)) eqn:Hvac|]; cbn [andb negb];
    rewrite ?bool_decide_eq_true, ?bool_decide_eq_false in *.
  2: { cbn [handleStepOutcome]. split; [tauto | done]. }
  all: assert (Hnohit : ~ hitsSnake g c) by tauto.
  all: case_bool_decide as Hc; [case_bool_decide as Hfull|];
    cbn [handleStepOutcome]; fold c.
  all: rewrite ?moveSnake_extend_spec, ?moveSnake_move_spec by done;
    cbn [rbind].
  all: repeat (split; [first [done | unfold MAX_SNAKE_LENGTH in *; lia]|]).
  all: try done.
  all: unfold placeFood;
    destruct (getRandomCoords tape (afterExtend c g)) as [[f tape']| |];
    cbn [rbind]; try done.
  all: do 3 f_equal; unfold afterEat; fold c; cbn.
  all: assert (Hw : wrap_uint8 (score g + 1) = score g + 1)
    by (unfold wrap_uint8, MAX_SNAKE_LENGTH in *; apply Z.mod_small; lia).
  all: rewrite Hw, Z.rem_mod_nonneg by (unfold MAX_SNAKE_LENGTH in *; lia).
  all: destruct (_ =? 0); cbn; [|done].
  all: unfold wrap_uint8; rewrite (Z.mod_small (speed g + 1) 256); [done|].
  all: unfold MAX_SNAKE_LENGTH in *; rewrite Hsp, Hscore.
  all: Z.to_euclidean_division_equations; lia.
Qed.

(** ** The invariant *)

Lemma NoDup_follow (h c t0 : Coords) (rest : list Coords) :
  NoDup (h :: t0 :: rest) ->
  c ∉ h :: t0 :: rest \/ c = t0 ->
  NoDup (c :: rest ++ [h]).
Proof.
  rewrite !NoDup_cons, NoDup_app, !not_elem_of_cons.
  intros ((Hht0 & Hhrest) & Ht0rest & Hrest) Hc.
  assert (Hcfree : c ∉ rest ++ [h]).
  { rewrite not_elem_of_app, not_elem_of_cons.
    destruct Hc as [(? & ? & ?)| ->].
    - repeat split; [done..|apply not_elem_of_nil].
    - repeat split; [done|congruence|apply not_elem_of_nil]. }
  repeat split; [done..| |].
  - intros x Hx [->|[]%not_elem_of_nil]%elem_of_cons. done.
  - apply NoDup_singleton.
Qed.

Lemma invariant_afterMove g :
  invariant g -> status g = ONGOING ->
  ~ hitsSnake g (getNextMove g) -> getNextMove g <> foodCoords g ->
  invariant (afterMove (getNextMove g) g).
Proof.
  intros [Hwf Hhd Hfd Htl Hnd Hstat Hsp] Hst Hhit Hc.
  rewrite Hst in Hstat. destruct Hstat as (Hmax & Hscore & Hfood).
  destruct (tailCells_vacated g Hwf) as (t0 & Hv & Htc).
  rewrite hitsSnake_iff, Hv in Hhit.
  set (c := getNextMove g) in *.
  assert (Hfollow : c ∉ occupied g \/ c = t0).
  { destruct (decide (c = t0)) as [|Hne]; [by right|left].
    intros Hin. apply Hhit. split; [done|congruence]. }
  unfold occupied in Hnd, Hfood, Hfollow. rewrite Htc in Hnd, Hfood, Hfollow.
  assert (Hocc : occupied (afterMove c g)
                 = c :: drop 1 (tailCells g) ++ [head (snake g)])
    by by apply occupied_afterMove.
  constructor.
  - by apply wellFormed_afterMove.
  - by apply getNextMove_torus.
  - done.
  - by apply inGrid_tail_afterMove.
  - rewrite Hocc. by apply (NoDup_follow _ _ t0).
  - change (status (afterMove c g)) with (status g). rewrite Hst.
    repeat split; [done..|].
    rewrite Hocc. rewrite !not_elem_of_cons in Hfood.
    rewrite not_elem_of_cons, not_elem_of_app, not_elem_of_cons.
    change (foodCoords (afterMove c g)) with (foodCoords g).
    repeat split; [congruence|tauto|tauto|apply not_elem_of_nil].
  - done.
Qed.

Lemma invariant_afterWin g :
  invariant g -> status g = ONGOING ->
  getNextMove g = foodCoords g ->
  tailLength (snake g) = MAX_SNAKE_LENGTH - 1 ->
  invariant (set_status WON (afterExtend (getNextMove g) g)).
Proof.
  intros [Hwf Hhd Hfd Htl Hnd Hstat Hsp] Hst Hc Hfull.
  rewrite Hst in Hstat. destruct Hstat as (Hmax & Hscore & Hfood).
  set (c := getNextMove g) in *.
  constructor.
  - by apply (wellFormed_afterExtend c g).
  - by apply getNextMove_torus.
  - done.
  - by apply (inGrid_tail_afterExtend c g).
  - change (NoDup (occupied (afterExtend c g))).
    rewrite occupied_afterExtend by done.
    apply NoDup_cons. split; [congruence|done].
  - cbn. unfold MAX_SNAKE_LENGTH in *. lia.
  - done.
Qed.

Lemma invariant_afterEat g f :
  invariant g -> status g = ONGOING ->
  getNextMove g = foodCoords g ->
  tailLength (snake g) < MAX_SNAKE_LENGTH - 1 ->
  inGrid f -> f ∉ occupied (afterExtend (getNextMove g) g) ->
  invariant (afterEat f g).
Proof.
  intros [Hwf Hhd Hfd Htl Hnd Hstat Hsp] Hst Hc Hfull Hf Hfree.
  rewrite Hst in Hstat. destruct Hstat as (Hmax & Hscore & Hfood).
  set (c := getNextMove g) in *.
  constructor.
  - by apply (wellFormed_afterExtend c g).
  - by apply getNextMove_torus.
  - done.
  - by apply (inGrid_tail_afterExtend c g).
  - change (NoDup (occupied (afterExtend c g))).
    rewrite occupied_afterExtend by done.
    apply NoDup_cons. split; [congruence|done].
  - change (status (afterEat f g)) with (status g). rewrite Hst.
    cbn. unfold MAX_SNAKE_LENGTH in *. repeat split; [lia..|done].
  - cbn. destruct (_ =? 0) eqn:E; rewrite Hsp.
    + apply Z.eqb_eq in E. Z.to_euclidean_division_equations; lia.
    + apply Z.eqb_neq in E. Z.to_euclidean_division_equations; lia.
Qed.

Lemma invariant_lost g :
  invariant g -> status g = ONGOING -> invariant (set_status LOST g).
Proof.
  intros [Hwf Hhd Hfd Htl Hnd Hstat Hsp] Hst.
  rewrite Hst in Hstat. destruct Hstat as (Hmax & Hscore & Hfood).
  by constructor.
Qed.

Lemma invariant_stepGame tape w w' tape' :
  invariant (game w) -> status (game w) = ONGOING ->
  stepGame tape w = Ok (w', tape') ->
  invariant (game w').
Proof.
  intros Hinv Hst Hstep.
  pose proof (stepGame_cases tape w Hinv Hst) as Hcases. cbv zeta in Hcases.
  set (g := turnSnake (currentTurn w) (game w)) in *.
  assert (Hinvg : invariant g) by by apply invariant_turnSnake.
  assert (Hstg : status g = ONGOING) by (subst g; by rewrite turnSnake_spec).
  destruct (outcomeOf g).
  - destruct Hcases as (Hhit & Hc & Heq). rewrite Heq in Hstep.
    injection Hstep as <- <-. by apply invariant_afterMove.
  - destruct Hcases as (Hhit & Hc & Hlen & Heq). rewrite Heq in Hstep.
    destruct (getRandomCoords _ _) as [[f t]| |] eqn:Hrand; try done.
    injection Hstep as <- <-.
    apply getRandomCoords_spec in Hrand as [Hf Hfree].
    + by apply invariant_afterEat.
    + apply wellFormed_afterExtend; [by destruct Hinvg|lia].
  - destruct Hcases as (Hhit & Heq). rewrite Heq in Hstep.
    injection Hstep as <- <-. by apply invariant_lost.
  - destruct Hcases as (Hhit & Hc & Hlen & Heq). rewrite Heq in Hstep.
    injection Hstep as <- <-. by apply invariant_afterWin.
Qed.

Lemma invariant_initGame tape g g' tape' :
  length (tail (snake g)) = Z.to_nat MAX_SNAKE_LENGTH ->
  Forall inGrid (tail (snake g)) ->
  initGame tape g = Ok (g', tape') ->
  invariant g' /\ status g' = ONGOING /\ score g' = 0 /\ speed g' = 1 /\
  tailLength (snake g') = 1.
Proof.
  intros Hlen Hgrid. unfold initGame, placeFood, MAX_SNAKE_LENGTH in *. cbn.
  rewrite (arr_set_insert _ 0%nat) by lia. cbn [rbind].
  destruct (getRandomCoords _ _) as [[f t]| |] eqn:Hrand; try done.
  cbn [rbind]. intros [= <- <-].
  destruct (tail (snake g)) as [|t0 rest] eqn:Htail; [cbn in Hlen; lia|].
  apply getRandomCoords_spec in Hrand as [Hf Hfree];
    [|split; cbn; [done | unfold MAX_SNAKE_LENGTH; lia]].
  split; [|done].
  constructor; cbn; try done.
  - apply Forall_cons. apply Forall_cons in Hgrid as [_ ?]. by split.
  - unfold occupied, tailCells. cbn.
    apply NoDup_cons. split; [|apply NoDup_singleton].
    by intros [=]%list_elem_of_singleton.
Qed.

Lemma reachable_invariant w : reachable w -> invariant (game w).
Proof.
  induction 1 as [tape g tape' Hinit | w _ IH | w _ IH
                 | w tape w' tape' _ IH Hst Hstep
                 | w tape w' tape' _ IH Hreset]; try done.
  - by apply (invariant_initGame tape (game boot) g tape') in Hinit as [? _];
      [|done|repeat constructor].
  - by eapply invariant_stepGame.
  - unfold resetGame in Hreset.
    destruct (initGame tape (game w)) as [[g t]| |] eqn:Hinit; try done.
    injection Hreset as <- <-.
    destruct IH as [[Hlen _] _ _ Htl _ _ _].
    by apply invariant_initGame in Hinit as [? _].
Qed.

(** ** Free cells and progress *)

Lemma free_cell_exists (l : list Coords) :
  (length l < 25)%nat ->
  exists r k, (r < 5)%nat /\ (k < 5)%nat /\
              mkCoords (Z.of_nat r) (Z.of_nat k) ∉ l.
Proof.
  intros Hlen.
  destruct (decide (Forall (fun c => c ∈ l) gridCells)) as [Hall|Hex].
  - assert (Hnd : NoDup gridCells) by compute_done.
    pose proof (NoDup_submseteq _ l Hnd (proj1 (Forall_forall _ _) Hall)) as Hsub.
    apply submseteq_length in Hsub.
    change (length gridCells) with 25%nat in Hsub. lia.
  - apply not_Forall_Exists in Hex.
    + apply Exists_exists in Hex as (c & Hc & Hfree).
      unfold gridCells in Hc.
      apply list_elem_of_bind in Hc as (r & Hc & Hr%elem_of_seq).
      apply list_elem_of_bind in Hc as (k & Hc & Hk%elem_of_seq).
      apply list_elem_of_singleton in Hc as ->.
      exists r, k. repeat split; [lia..|done].
    + intros x. apply _.
Qed.

Lemma getRandomCoords_no_fault tape g :
  wellFormed g -> getRandomCoords tape g <> OutOfBounds.
Proof.
  intros Hwf. remember (length tape) as n eqn:Hn. revert tape Hn.
  induction n as [n IH] using lt_wf_ind. intros tape Hn.
  destruct tape as [|r [|k rest]]; cbn [getRandomCoords]; try done.
  rewrite coordsInSnake_spec by done. cbn [rbind].
  case_bool_decide as Hin; [|done].
  apply (IH (length rest)); [subst n; cbn; lia | done].
Qed.

(** From a state of the running game, a step never leaves the array, and
    some values of [rand()] let it return. *)
Lemma stepGame_progress w :
  invariant (game w) -> status (game w) = ONGOING ->
  (forall tape, stepGame tape w <> OutOfBounds) /\
  (exists tape w' tape', stepGame tape w = Ok (w', tape')).
Proof.
  intros Hinv Hst.
  pose proof (fun tape => stepGame_cases tape w Hinv Hst) as Hcases.
  cbv zeta in Hcases.
  set (g := turnSnake (currentTurn w) (game w)) in *.
  assert (Hinvg : invariant g) by by apply invariant_turnSnake.
  destruct Hinvg as [Hwf _ _ _ _ _ _].
  destruct (outcomeOf g).
  - split; [intros tape; destruct (Hcases tape) as (_ & _ & ->); done|].
    eexists [], _, _. by destruct (Hcases []) as (_ & _ & ->).
  - destruct (Hcases []) as (_ & _ & Hlen & _).
    assert (Hwf' : wellFormed (afterExtend (getNextMove g) g))
      by (apply wellFormed_afterExtend; [done|lia]).
    split.
    + intros tape. destruct (Hcases tape) as (_ & _ & _ & ->).
      pose proof (getRandomCoords_no_fault tape _ Hwf').
      by destruct (getRandomCoords _ _) as [[]| |].
    + destruct (free_cell_exists (occupied (afterExtend (getNextMove g) g)))
        as (r & k & Hr & Hk & Hfree).
      { rewrite occupied_afterExtend by (done || lia).
        unfold occupied, tailCells. cbn [length]. rewrite length_take.
        unfold MAX_SNAKE_LENGTH in *. lia. }
      eexists [N.of_nat r; N.of_nat k], _, _.
      destruct (Hcases [N.of_nat r; N.of_nat k]) as (_ & _ & _ & ->).
      by rewrite getRandomCoords_free.
  - split; [intros tape; destruct (Hcases tape) as (_ & ->); done|].
    eexists [], _, _. by destruct (Hcases []) as (_ & ->).
  - split; [intros tape; destruct (Hcases tape) as (_ & _ & _ & ->); done|].
    eexists [], _, _. by destruct (Hcases []) as (_ & _ & _ & ->).
Qed.

(** ** Runs of the program *)

Lemma start_reachable tape w : start tape = Ok w -> reachable w.
Proof.
  unfold start.
  destruct (initGame tape (game boot)) as [[g t]| |] eqn:Hinit; try done.
  cbn [rbind]. intros [= <-]. by eapply reach_main.
Qed.

Lemma press_reachable t w : reachable w -> reachable (press t w).
Proof. destruct t; [done | apply reach_buttonA | apply reach_buttonB]. Qed.

Lemma press_status t w : status (game (press t w)) = status (game w).
Proof. by destruct t. Qed.

Lemma play_reachable inputs w w' :
  reachable w -> play inputs w = Ok w' -> reachable w'.
Proof.
  revert w. induction inputs as [|[t tape] rest IH]; intros w Hw; cbn [play].
  - by intros [= <-].
  - destruct (status (game w)) eqn:Hst; try by intros [= <-].
    destruct (stepGame tape (press t w)) as [[w1 t1]| |] eqn:Hstep; try done.
    cbn [rbind]. apply IH.
    eapply reach_step; [by apply press_reachable | | done].
    by rewrite press_status.
Qed.

Lemma run_reachable food inputs w :
  run food inputs = Ok w -> reachable w.
Proof.
  unfold run. destruct (start food) as [w0| |] eqn:Hstart; try done.
  cbn [rbind]. by apply play_reachable, (start_reachable food).
Qed.

(** * Properties of the specification *)

(** ** The loss condition

    What [getStepOutcome] and [handleStepOutcome] do with [tail[0]], the slot
    a move without extension gives up.  In every reachable state with status
    ONGOING a step sets the status to LOST exactly when the candidate is a
    cell of the snake other than the one in [tail[0]]; on such a step the
    state after the pending turn was applied changes in its status only.
    When the candidate is the cell in [tail[0]] and not the food cell, the
    step is a plain move: the status stays ONGOING, that cell leaves the
    snake as the head enters it, and no two parts of the snake overlap
    afterwards. *)
Lemma stepGame_lost_iff_hits_snake (w : World) (tape : list N) :
  reachable w -> status (game w) = ONGOING ->
  let g := turnSnake (currentTurn w) (game w) in
  let c := getNextMove g in
  (hitsSnake g c <->
   exists w' tape', stepGame tape w = Ok (w', tape') /\ status (game w') = LOST)
  /\ (hitsSnake g c ->
      stepGame tape w = Ok (mkWorld (set_status LOST g) TURN_NONE, tape))
  /\ (vacated g = Some c -> c <> foodCoords g ->
      moveSnake c false g = Ok (afterMove c g) /\
      stepGame tape w = Ok (mkWorld (afterMove c g) TURN_NONE, tape) /\
      status (afterMove c g) = ONGOING /\
      occupied (afterMove c g) = c :: drop 1 (tailCells g) ++ [head (snake g)] /\
      tailCells g = c :: drop 1 (tailCells g) /\
      NoDup (occupied (afterMove c g))).
Proof.
  intros Hreach Hst g c.
  pose proof (reachable_invariant w Hreach) as Hinv.
  pose proof (stepGame_cases tape w Hinv Hst) as Hcases. cbv zeta in Hcases.
  fold g in Hcases. fold c in Hcases.
  assert (Hinvg : invariant g) by by apply invariant_turnSnake.
  assert (Hstg : status g = ONGOING) by (subst g; by rewrite turnSnake_spec).
  assert (Hwf : wellFormed g) by by destruct Hinvg.
  split; [|split].
  - split.
    + intros Hhit. destruct (outcomeOf g); try tauto.
      destruct Hcases as (_ & ->). by eexists _, _.
    + intros (w' & tape' & Hstep & Hlost).
      destruct (outcomeOf g); try tauto.
      * destruct Hcases as (_ & _ & Heq). rewrite Heq in Hstep.
        injection Hstep as <- <-. cbn in Hlost. congruence.
      * destruct Hcases as (_ & _ & _ & Heq). rewrite Heq in Hstep.
        destruct (getRandomCoords _ _) as [[f t]| |]; try done.
        injection Hstep as <- <-. cbn in Hlost. congruence.
      * destruct Hcases as (_ & _ & _ & Heq). rewrite Heq in Hstep.
        injection Hstep as <- <-. done.
  - intros Hhit. destruct (outcomeOf g); tauto.
  - intros Hvac Hfood.
    assert (Hnohit : ~ hitsSnake g c).
    { rewrite hitsSnake_iff. intros [_ Hne]. congruence. }
    destruct (tailCells_vacated g Hwf) as (t0 & Hv & Htc).
    assert (t0 = c) as -> by congruence.
    pose proof (invariant_afterMove g Hinvg Hstg Hnohit Hfood) as Hinv'.
    fold c in Hinv'.
    repeat split.
    + by apply moveSnake_move_spec.
    + destruct (outcomeOf g); tauto.
    + done.
    + by apply occupied_afterMove.
    + done.
    + by destruct Hinv'.
Qed.

(** The snake follows its own tail around a square: the candidate (2,4) is
    the cell in [tail[0]], and the step is a plain move. *)
Lemma tail_chase_is_plain_move :
  let w := chaseWorld in
  let g := turnSnake (currentTurn w) (game w) in
  let c := getNextMove g in
  reachable w /\ status (game w) = ONGOING /\
  c = mkCoords 2 4 /\ vacated g = Some c /\ c <> foodCoords g /\
  stepGame [] w = Ok (mkWorld (afterMove c g) TURN_NONE, []) /\
  status (afterMove c g) = ONGOING /\
  NoDup (occupied (afterMove c g)).
Proof.
  assert (Hreach : reachable chaseWorld).
  { refine (reach_buttonB (worldAfter sweepFood chase) _).
    apply (run_reachable sweepFood chase). reflexivity. }
  pose proof (stepGame_lost_iff_hits_snake chaseWorld [] Hreach eq_refl)
    as (_ & _ & Hmove).
  destruct Hmove as (_ & Hstep & Hst & _ & _ & Hnd); [reflexivity|done|].
  by repeat split.
Qed.

(** C1.  The snake has eaten twice and lies along (2,1), (2,2), (3,2) with
    the head at (3,1); it turns towards (2,1).  That cell is the trailing
    segment and no other part of the snake, and it is not the food cell, so
    the step should be a plain move that leaves the status ONGOING.  After
    the two extensions the trailing segment is in [tail[2]], while
    [getStepOutcome] exempts the cell in [tail[0]], here the segment next to
    the head: the step sets the status to LOST. *)
Theorem C1_move_onto_trailing_segment_is_lost :
  let w := cornerWorld in
  let g := turnSnake (currentTurn w) (game w) in
  let c := getNextMove g in
  reachable w /\ status (game w) = ONGOING /\
  head (snake g) = mkCoords 3 1 /\
  tailCells g = [mkCoords 3 2; mkCoords 2 2; mkCoords 2 1] /\
  c = mkCoords 2 1 /\
  last (tailCells g) = Some c /\
  c ∉ head (snake g) :: removelast (tailCells g) /\
  c <> foodCoords g /\
  NoDup (c :: snd (specMove (head (snake g)) (tailCells g) c false)) /\
  vacated g = Some (mkCoords 3 2) /\
  hitsSnake g c /\
  stepGame [] w = Ok (mkWorld (set_status LOST g) TURN_NONE, []).
Proof.
  assert (Hreach : reachable cornerWorld).
  { refine (reach_buttonB (worldAfter [3; 2]%N corner) _).
    apply (run_reachable [3; 2]%N corner). reflexivity. }
  assert (Hhit : hitsSnake (turnSnake (currentTurn cornerWorld) (game cornerWorld))
                   (getNextMove
                      (turnSnake (currentTurn cornerWorld) (game cornerWorld)))).
  { apply hitsSnake_iff. split; [compute_done | by vm_compute]. }
  split; [exact Hreach|].
  do 5 (split; [reflexivity|]).
  split; [compute_done|]. split; [by vm_compute|]. split; [compute_done|].
  split; [reflexivity|]. split; [exact Hhit|].
  by apply (stepGame_lost_iff_hits_snake cornerWorld [] Hreach eq_refl).
Qed.

(** What [moveSnake] does to the cells of the snake, in general: with
    extension the old head goes in front of the used slots, as the
    description of section 4.1 has it; without extension the first used slot
    is dropped and the old head goes behind the last one. *)
Lemma moveSnake_extend_as_specified c g :
  wellFormed g -> tailLength (snake g) <= MAX_SNAKE_LENGTH - 1 ->
  exists g', moveSnake c true g = Ok g' /\
    (head (snake g'), tailCells g')
    = specMove (head (snake g)) (tailCells g) c true /\
    tailLength (snake g') = tailLength (snake g) + 1.
Proof.
  intros Hwf Hmax. exists (afterExtend c g).
  split; [by apply moveSnake_extend_spec|].
  by rewrite tailCells_afterExtend.
Qed.

Lemma moveSnake_move_rotates c g :
  wellFormed g ->
  exists g', moveSnake c false g = Ok g' /\
    head (snake g') = c /\
    tailCells g' = drop 1 (tailCells g) ++ [head (snake g)] /\
    tailLength (snake g') = tailLength (snake g).
Proof.
  intros Hwf. exists (afterMove c g).
  split; [by apply moveSnake_move_spec|].
  by rewrite tailCells_afterMove.
Qed.

(** C2. After one food the snake has its head at (2,3) and its tail in
    slots (2,2), (2,1).  The next plain move to (2,4) should, by the
    description over a tail ordered nearest-to-head first, leave the tail
    (2,3), (2,2); [moveSnake] leaves (2,1), (2,3): it drops the segment next
    to the head and keeps the oldest one. *)
Theorem C2_moveSnake_drops_front_slot :
  let w := eatenWorld in
  let g := game w in
  let c := getNextMove g in
  reachable w /\ status g = ONGOING /\ currentTurn w = TURN_NONE /\
  head (snake g) = mkCoords 2 3 /\
  tailCells g = [mkCoords 2 2; mkCoords 2 1] /\
  c = mkCoords 2 4 /\
  specMove (head (snake g)) (tailCells g) c false
  = (mkCoords 2 4, [mkCoords 2 3; mkCoords 2 2]) /\
  exists g',
    moveSnake c false g = Ok g' /\
    stepGame [] w = Ok (mkWorld g' TURN_NONE, []) /\
    head (snake g') = mkCoords 2 4 /\
    tailCells g' = [mkCoords 2 1; mkCoords 2 3] /\
    (head (snake g'), tailCells g')
    <> specMove (head (snake g)) (tailCells g) c false.
Proof.
  repeat split.
  - apply (run_reachable sweepFood eatenOnce). reflexivity.
  - eexists. repeat split; [vm_compute; reflexivity..|].
    vm_compute. discriminate.
Qed.

(** C3, as stated, fails: at the end of the sweep the game is won and the
    tail has MAX_SNAKE_LENGTH segments. *)
Lemma C3_counterexample :
  ~ (forall w, reachable w -> tailLength (snake (game w)) <= MAX_SNAKE_LENGTH - 1).
Proof.
  intros Hbound.
  assert (Hreach : reachable sweepWorld23)
    by (apply (run_reachable sweepFood sweep); reflexivity).
  apply Hbound in Hreach. vm_compute in Hreach. by apply Hreach.
Qed.

(** C3, amended.  In every reachable state the tail has between 1 and
    MAX_SNAKE_LENGTH segments, which is the capacity of the array; it has at
    most MAX_SNAKE_LENGTH - 1 unless the game is won, and exactly
    MAX_SNAKE_LENGTH when it is won.  No step from a state of the running
    game and no reset accesses the array out of bounds. *)
Theorem C3_tail_within_array (w : World) :
  reachable w ->
  length (tail (snake (game w))) = Z.to_nat MAX_SNAKE_LENGTH /\
  1 <= tailLength (snake (game w)) <= MAX_SNAKE_LENGTH /\
  (status (game w) <> WON ->
   tailLength (snake (game w)) <= MAX_SNAKE_LENGTH - 1) /\
  (status (game w) = WON -> tailLength (snake (game w)) = MAX_SNAKE_LENGTH) /\
  (status (game w) = ONGOING -> forall tape, stepGame tape w <> OutOfBounds) /\
  (forall tape, resetGame tape w <> OutOfBounds).
Proof.
  intros Hreach. pose proof (reachable_invariant w Hreach) as Hinv.
  pose proof Hinv as [[Hlen Hn] _ _ _ _ Hstat _].
  repeat split; try tauto.
  - intros Hst. destruct (status (game w)); tauto.
  - intros Hst. rewrite Hst in Hstat. tauto.
  - intros Hst. by apply stepGame_progress.
  - intros tape. unfold resetGame, initGame, placeFood. cbn.
    rewrite (arr_set_insert _ 0%nat) by (unfold MAX_SNAKE_LENGTH in *; lia).
    cbn [rbind].
    match goal with
    | |- context [getRandomCoords tape ?g] =>
        pose proof (getRandomCoords_no_fault tape g) as Hrand;
        destruct (getRandomCoords tape g) as [[f t]| |]
    end; try done.
    exfalso. apply Hrand; [|done].
    split; cbn; [by rewrite length_insert | unfold MAX_SNAKE_LENGTH; lia].
Qed.

(** The won state at the end of the sweep has all 24 slots in use. *)
Lemma C3_witness :
  let w := sweepWorld23 in
  reachable w /\ status (game w) = WON /\
  tailLength (snake (game w)) = MAX_SNAKE_LENGTH /\
  length (tail (snake (game w))) = Z.to_nat MAX_SNAKE_LENGTH.
Proof.
  assert (Hreach : reachable sweepWorld23)
    by (apply (run_reachable sweepFood sweep); reflexivity).
  pose proof (C3_tail_within_array sweepWorld23 Hreach)
    as (Hlen & _ & _ & Hwon & _).
  split; [exact Hreach|]. split; [reflexivity|].
  split; [exact (Hwon eq_refl) | exact Hlen].
Defined.

(** C4, as stated, fails: two rounds before the end of the sweep the tail
    has MAX_SNAKE_LENGTH - 2 segments and the food lies right ahead; the
    step eats it, places new food at (1,0), and the game goes on. *)
Lemma C4_counterexample :
  let w := sweepWorld21 in
  let g := turnSnake (currentTurn w) (game w) in
  reachable w /\ status (game w) = ONGOING /\
  tailLength (snake (game w)) = MAX_SNAKE_LENGTH - 2 /\
  getNextMove g = foodCoords g /\
  exists w',
    stepGame [1; 0]%N w = Ok (w', []) /\
    status (game w') = ONGOING /\
    foodCoords (game w') = mkCoords 1 0 /\
    foodCoords (game w') <> foodCoords (game w) /\
    ~ (status (game w') = WON).
Proof.
  split; [apply (run_reachable sweepFood (take 21 sweep)); reflexivity|].
  do 3 (split; [reflexivity|]).
  eexists. split; [vm_compute; reflexivity|].
  do 2 (split; [reflexivity|]).
  split; vm_compute; discriminate.
Qed.

(** C4, amended.  From a reachable ONGOING state whose tail has
    MAX_SNAKE_LENGTH - 1 segments and whose candidate cell is the food cell,
    one step returns whatever [rand()] would yield, sets the status to WON,
    grows the tail by one segment onto the candidate, and leaves the food and
    the tape of random values as they were. *)
Theorem C4_win_at_full_length (w : World) (tape : list N) :
  reachable w -> status (game w) = ONGOING ->
  let g := turnSnake (currentTurn w) (game w) in
  let c := getNextMove g in
  tailLength (snake g) = MAX_SNAKE_LENGTH - 1 ->
  c = foodCoords g ->
  exists w',
    stepGame tape w = Ok (w', tape) /\
    status (game w') = WON /\
    tailLength (snake (game w')) = tailLength (snake g) + 1 /\
    occupied (game w') = c :: occupied g /\
    foodCoords (game w') = foodCoords (game w) /\
    score (game w') = score (game w) /\
    speed (game w') = speed (game w).
Proof.
  intros Hreach Hst g c Hlen Hc.
  pose proof (reachable_invariant w Hreach) as Hinv.
  pose proof (stepGame_cases tape w Hinv Hst) as Hcases. cbv zeta in Hcases.
  fold g in Hcases. fold c in Hcases.
  assert (Hinvg : invariant g) by by apply invariant_turnSnake.
  assert (Hwf : wellFormed g) by by destruct Hinvg.
  assert (Hstg : status g = ONGOING) by (subst g; by rewrite turnSnake_spec).
  assert (Hfood : foodCoords g ∉ occupied g).
  { destruct Hinvg as [_ _ _ _ _ Hstat _]. rewrite Hstg in Hstat. tauto. }
  assert (Hout : outcomeOf g = FULL).
  { destruct (outcomeOf g); try done.
    - destruct Hcases as (_ & ? & _). done.
    - destruct Hcases as (_ & _ & ? & _). lia.
    - destruct Hcases as ((Hin & _)%hitsSnake_iff & _). congruence. }
  rewrite Hout in Hcases. destruct Hcases as (_ & _ & _ & Hstep).
  exists (mkWorld (set_status WON (afterExtend c g)) TURN_NONE).
  repeat split; try done.
  - change (occupied (afterExtend c g) = c :: occupied g).
    apply occupied_afterExtend; [done|lia].
  - subst g. by rewrite turnSnake_spec.
  - subst g. by rewrite turnSnake_spec.
  - subst g. by rewrite turnSnake_spec.
Qed.

(** One round before the end of the sweep the tail has 23 segments and the
    last free cell holds the food: the step wins the game. *)
Lemma C4_witness :
  let w := sweepWorld22 in
  reachable w /\ status (game w) = ONGOING /\
  tailLength (snake (game w)) = MAX_SNAKE_LENGTH - 1 /\
  exists w',
    stepGame [] w = Ok (w', []) /\
    status (game w') = WON /\
    tailLength (snake (game w')) = MAX_SNAKE_LENGTH.
Proof.
  assert (Hreach : reachable sweepWorld22)
    by (apply (run_reachable sweepFood (take 22 sweep)); reflexivity).
  destruct (C4_win_at_full_length sweepWorld22 [] Hreach eq_refl eq_refl eq_refl)
    as (w' & Hstep & Hwon & Hlen & _).
  split; [exact Hreach|]. split; [reflexivity|]. split; [reflexivity|].
  exists w'. split; [exact Hstep|]. split; [exact Hwon | exact Hlen].
Defined.

(** C5. In a reachable ONGOING state whose candidate cell is the food cell
    and whose tail has fewer than MAX_SNAKE_LENGTH - 1 segments, every step
    that returns has grown the tail by one, raised the score by one, raised
    the speed by one exactly when the new score is a multiple of 5, and
    placed the new food on a cell of the grid that the snake, after the
    move, does not occupy.  Some values of [rand()] make the step return. *)
Theorem C5_eat_grows_scores_and_places_food (w : World) :
  reachable w -> status (game w) = ONGOING ->
  let g := turnSnake (currentTurn w) (game w) in
  getNextMove g = foodCoords g ->
  tailLength (snake g) < MAX_SNAKE_LENGTH - 1 ->
  (forall tape w' tape', stepGame tape w = Ok (w', tape') ->
     let g' := game w' in
     tailLength (snake g') = tailLength (snake (game w)) + 1 /\
     occupied g' = getNextMove g :: occupied g /\
     score g' = score (game w) + 1 /\
     speed g' = (if score g' mod 5 =? 0 then speed (game w) + 1
                 else speed (game w)) /\
     status g' = ONGOING /\
     inGrid (foodCoords g') /\
     foodCoords g' ∉ occupied g') /\
  (exists tape w' tape', stepGame tape w = Ok (w', tape')).
Proof.
  intros Hreach Hst g Hc Hlen.
  pose proof (reachable_invariant w Hreach) as Hinv.
  split; [|by apply stepGame_progress].
  intros tape w' tape' Hstep.
  pose proof (stepGame_cases tape w Hinv Hst) as Hcases. cbv zeta in Hcases.
  fold g in Hcases.
  assert (Hinvg : invariant g) by by apply invariant_turnSnake.
  assert (Hwf : wellFormed g) by by destruct Hinvg.
  assert (Hstg : status g = ONGOING) by (subst g; by rewrite turnSnake_spec).
  assert (Hfood : foodCoords g ∉ occupied g).
  { destruct Hinvg as [_ _ _ _ _ Hstat _]. rewrite Hstg in Hstat. tauto. }
  assert (Hout : outcomeOf g = EAT).
  { destruct (outcomeOf g); try done.
    - destruct Hcases as (_ & ? & _). done.
    - destruct Hcases as ((Hin & _)%hitsSnake_iff & _). congruence.
    - destruct Hcases as (_ & _ & ? & _). lia. }
  rewrite Hout in Hcases. destruct Hcases as (_ & _ & _ & Heq).
  rewrite Heq in Hstep.
  destruct (getRandomCoords _ _) as [[f t]| |] eqn:Hrand; try done.
  injection Hstep as <- <-.
  assert (Hwf' : wellFormed (afterExtend (getNextMove g) g))
    by (apply wellFormed_afterExtend; [done|lia]).
  apply getRandomCoords_spec in Hrand as [Hf Hfree]; [|done].
  assert (Hocc : occupied (afterEat f g) = getNextMove g :: occupied g).
  { change (occupied (afterEat f g))
      with (occupied (afterExtend (getNextMove g) g)).
    apply occupied_afterExtend; [done|lia]. }
  assert (Hsame : tailLength (snake g) = tailLength (snake (game w)) /\
                  score g = score (game w) /\ speed g = speed (game w))
    by (subst g; by rewrite turnSnake_spec).
  destruct Hsame as (Htl & Hsc & Hsp).
  cbv zeta. cbn [game].
  split; [cbn; lia|]. split; [exact Hocc|]. split; [cbn; lia|].
  split; [cbn; by rewrite Hsc, Hsp|].
  split; [exact Hstg|]. split; [exact Hf | exact Hfree].
Qed.

(** Right after [initGame] put the food at (2,3), in front of the snake:
    the first step eats it and places the next food at (0,0). *)
Lemma C5_witness :
  let w := worldAfter sweepFood [] in
  reachable w /\ status (game w) = ONGOING /\
  getNextMove (turnSnake (currentTurn w) (game w)) = foodCoords (game w) /\
  exists w', stepGame [0; 0]%N w = Ok (w', []) /\
    tailLength (snake (game w')) = 2 /\ score (game w') = 1 /\
    speed (game w') = 1 /\ foodCoords (game w') ∉ occupied (game w').
Proof.
  assert (Hreach : reachable (worldAfter sweepFood []))
    by (apply (run_reachable sweepFood []); reflexivity).
  split; [exact Hreach|]. split; [reflexivity|]. split; [reflexivity|].
  eexists. split; [vm_compute; reflexivity|].
  assert (Hlt : 1 < MAX_SNAKE_LENGTH - 1) by reflexivity.
  destruct (C5_eat_grows_scores_and_places_food _ Hreach eq_refl eq_refl Hlt)
    as [Heat _].
  destruct (Heat [0; 0]%N _ [] eq_refl) as (Hlen & _ & Hsc & Hsp & _ & _ & Hfree).
  split; [exact Hlen|]. split; [exact Hsc|]. split; [exact Hsp | exact Hfree].
Defined.

(** ** Direction and pending turn across a step *)

Lemma moveSnake_direction c e g g' :
  moveSnake c e g = Ok g' -> direction (snake g') = direction (snake g).
Proof.
  unfold moveSnake. destruct e; cbn [negb].
  - destruct (shift_up _ _ _) as [t| |]; cbn [rbind]; try done.
    destruct (arr_set t 0 _) as [t'| |]; cbn [rbind]; try done.
    by intros [= <-].
  - destruct (shift_down _ _ _) as [t| |]; cbn [rbind]; try done.
    destruct (arr_set t _ _) as [t'| |]; cbn [rbind]; try done.
    by intros [= <-].
Qed.

Lemma handleStepOutcome_direction tape o g g' tape' :
  handleStepOutcome tape o g = Ok (g', tape') ->
  direction (snake g') = direction (snake g).
Proof.
  unfold handleStepOutcome, placeFood. destruct o.
  - destruct (moveSnake _ false g) as [g1| |] eqn:Hmove; cbn [rbind]; try done.
    intros [= <- <-]. by eapply moveSnake_direction.
  - destruct (moveSnake _ true g) as [g1| |] eqn:Hmove; cbn [rbind]; try done.
    destruct (getRandomCoords tape g1) as [[f t]| |]; cbn [rbind]; try done.
    intros [= <- <-]. apply moveSnake_direction in Hmove. rewrite <- Hmove.
    by destruct (_ =? 0).
  - by intros [= <- <-].
  - destruct (moveSnake _ true g) as [g1| |] eqn:Hmove; cbn [rbind]; try done.
    intros [= <- <-]. by apply moveSnake_direction in Hmove.
Qed.

Lemma stepGame_turn tape w w' tape' :
  stepGame tape w = Ok (w', tape') ->
  direction (snake (game w'))
  = turnTable (direction (snake (game w))) (currentTurn w) /\
  currentTurn w' = TURN_NONE.
Proof.
  unfold stepGame.
  destruct (getStepOutcome _) as [o| |]; cbn [rbind]; try done.
  destruct (handleStepOutcome _ _ _) as [[g t]| |] eqn:Hhandle;
    cbn [rbind]; try done.
  intros [= <- <-]. split; [|done].
  apply handleStepOutcome_direction in Hhandle. cbn [game].
  rewrite Hhandle. by rewrite turnSnake_spec.
Qed.

(** C6. Button A and then button B before one step leave TURN_RIGHT in the
    pending slot, exactly as button B alone does.  Every step that returns
    from there has turned the direction right by the turn table (UP to
    RIGHT, DOWN to LEFT, LEFT to UP, RIGHT to DOWN) and has cleared the
    pending slot to TURN_NONE.  From a reachable ONGOING state some values
    of [rand()] make the step return. *)
Theorem C6_last_queued_turn_wins (w : World) :
  let queued := handleButtonB (handleButtonA w) in
  currentTurn queued = TURN_RIGHT /\
  queued = handleButtonB w /\
  (forall tape w' tape', stepGame tape queued = Ok (w', tape') ->
     direction (snake (game w'))
     = match direction (snake (game w)) with
       | UP => RIGHT
       | DOWN => LEFT
       | LEFT => UP
       | RIGHT => DOWN
       end /\
     currentTurn w' = TURN_NONE) /\
  (reachable w -> status (game w) = ONGOING ->
   exists tape w' tape', stepGame tape queued = Ok (w', tape')).
Proof.
  cbv zeta. split; [done|]. split; [done|]. split.
  - intros tape w' tape' [Hdir Hturn]%stepGame_turn. split; [|done].
    rewrite Hdir. cbn. by destruct (direction (snake (game w))).
  - intros Hreach Hst. apply stepGame_progress; [|done].
    by apply reachable_invariant, reach_buttonB, reach_buttonA.
Qed.

(** From the initial position, heading RIGHT: after A then B the step
    leaves the snake heading DOWN with nothing pending. *)
Lemma C6_witness :
  let w := initialWorld in
  reachable w /\ direction (snake (game w)) = RIGHT /\
  exists w',
    stepGame [] (handleButtonB (handleButtonA w)) = Ok (w', []) /\
    direction (snake (game w')) = DOWN /\ currentTurn w' = TURN_NONE.
Proof.
  split; [apply (start_reachable [0; 0]%N); reflexivity|].
  split; [reflexivity|].
  eexists. split; [vm_compute; reflexivity|].
  exact (proj1 (proj2 (proj2 (C6_last_queued_turn_wins initialWorld)))
           [] _ [] eq_refl).
Defined.

(** ** Rendering *)

Lemma displayTail_loop_spec (n k : nat) (t : list Coords) :
  (k + n <= length t)%nat -> (k + n <= 24)%nat ->
  displayTail_loop n (Z.of_nat k) t
  = Ok ((fun c => SetPixelValue (col c) (row c) TAIL_BRIGHTNESS)
          <$> take n (drop k t)).
Proof.
  revert k. induction n as [|n IH]; intros k Hlen Hmax;
    cbn [displayTail_loop].
  - by rewrite take_0.
  - destruct (lookup_lt_is_Some_2 t k) as [x Hx]; [lia|].
    rewrite (arr_get_lookup _ _ _ Hx) by lia. cbn [rbind].
    replace (Z.of_nat k + 1) with (Z.of_nat (S k)) by lia.
    rewrite IH by lia. cbn [rbind].
    by rewrite (drop_S _ _ _ Hx), firstn_cons, fmap_cons.
Qed.

Lemma displayGameState_inGrid g :
  invariant g ->
  exists ops, displayGameState g = Ok ops /\ Forall pixelInGrid ops.
Proof.
  intros [[Hlen Hn] Hhd Hfd Htl _ _ _]. unfold displayGameState.
  unfold MAX_SNAKE_LENGTH in *.
  rewrite (displayTail_loop_spec _ 0) by (cbn; lia). cbn [rbind].
  eexists. split; [done|].
  rewrite drop_0. apply Forall_app. split; [|apply Forall_app; split].
  - repeat constructor; apply Hhd.
  - apply Forall_fmap. eapply Forall_impl; [by apply Forall_take|].
    intros c Hc. split; apply Hc.
  - repeat constructor; apply Hfd.
Qed.

(** C7. From a head inside the grid, in any direction, the candidate cell
    is the head moved one step on the torus, each axis wrapped on its own
    (below 0 becomes N-1, N becomes 0), and it lies inside the grid; from
    (0,2) going UP it is (4,2), and from (2,4) going RIGHT it is (2,0).  In
    every reachable state the head, the food and all slots of the tail lie
    inside the grid, the candidate of the next step does too, and
    [displayGameState] sets no pixel outside the grid. *)
Theorem C7_toroidal_wraparound (g : Game) :
  inGrid (head (snake g)) ->
  (getNextMove g = torusStep (head (snake g)) (direction (snake g)) /\
   inGrid (getNextMove g)) /\
  (head (snake g) = mkCoords 0 2 -> direction (snake g) = UP ->
   getNextMove g = mkCoords 4 2) /\
  (head (snake g) = mkCoords 2 4 -> direction (snake g) = RIGHT ->
   getNextMove g = mkCoords 2 0) /\
  (forall w, reachable w ->
     inGrid (head (snake (game w))) /\
     inGrid (foodCoords (game w)) /\
     Forall inGrid (tail (snake (game w))) /\
     inGrid (getNextMove (turnSnake (currentTurn w) (game w))) /\
     exists ops, displayGameState (game w) = Ok ops /\ Forall pixelInGrid ops).
Proof.
  intros Hhd. split; [by apply getNextMove_torus|].
  split; [|split].
  - intros Hh Hd. unfold getNextMove. by rewrite Hh, Hd.
  - intros Hh Hd. unfold getNextMove. by rewrite Hh, Hd.
  - intros w Hreach. pose proof (reachable_invariant w Hreach) as Hinv.
    pose proof (invariant_turnSnake (currentTurn w) _ Hinv) as Hinvg.
    split; [apply Hinv|]. split; [apply Hinv|]. split; [apply Hinv|].
    split; [by apply getNextMove_torus, Hinvg|].
    by apply displayGameState_inGrid.
Qed.

(** The two examples of the specification, on games that differ from the
    initial one in head and direction only. *)
Lemma C7_witness :
  let g1 := set_snake (mkSnake (mkCoords 0 2) (tail (snake (game initialWorld)))
                         1 UP) (game initialWorld) in
  let g2 := set_snake (mkSnake (mkCoords 2 4) (tail (snake (game initialWorld)))
                         1 RIGHT) (game initialWorld) in
  getNextMove g1 = mkCoords 4 2 /\ getNextMove g2 = mkCoords 2 0.
Proof.
  intros g1 g2.
  assert (H1 : inGrid (head (snake g1))) by (by vm_compute).
  assert (H2 : inGrid (head (snake g2))) by (by vm_compute).
  split.
  - exact (proj1 (proj2 (C7_toroidal_wraparound g1 H1)) eq_refl eq_refl).
  - exact (proj1 (proj2 (proj2 (C7_toroidal_wraparound g2 H2)))
             eq_refl eq_refl).
Defined.

(** ** Step interval *)

Lemma wrap_int32_small z :
  -2147483648 <= z < 2147483648 -> wrap_int32 z = z.
Proof. intros Hz. unfold wrap_int32. rewrite Z.mod_small; lia. Qed.

Lemma getStepLengthMs_spec g :
  0 <= speed g < 256 ->
  getStepLengthMs g = Z.max 200 (1000 - 200 * (speed g - 1)).
Proof.
  intros Hsp. unfold getStepLengthMs.
  rewrite (wrap_int32_small (speed g - 1)) by lia.
  rewrite (wrap_int32_small (200 * _)) by lia.
  rewrite wrap_int32_small by lia.
  unfold wrap_uint32.
  destruct (_ <? 200) eqn:E; [apply Z.ltb_lt in E | apply Z.ltb_ge in E].
  - rewrite Z.mod_small; lia.
  - rewrite Z.mod_small; lia.
Qed.

(** C8. For every value a [uint8_t] speed can hold, the step interval is
    max(200, 1000 - 200 * (speed - 1)) milliseconds; it does not increase
    when the speed does and is never below 200.  The speeds of reachable
    states, which start at 1, are among these values. *)
Theorem C8_step_interval (g g2 : Game) :
  0 <= speed g <= speed g2 -> speed g2 < 256 ->
  getStepLengthMs g = Z.max 200 (1000 - 200 * (speed g - 1)) /\
  getStepLengthMs g2 <= getStepLengthMs g /\
  200 <= getStepLengthMs g2 /\
  (forall w, reachable w ->
     1 <= speed (game w) < 256 /\
     getStepLengthMs (game w)
     = Z.max 200 (1000 - 200 * (speed (game w) - 1))).
Proof.
  intros Hle Hmax.
  rewrite !getStepLengthMs_spec by lia.
  split; [done|]. split; [lia|]. split; [lia|].
  intros w Hreach.
  pose proof (reachable_invariant w Hreach) as [[_ Hn] _ _ _ _ Hstat Hsp].
  assert (Hscore : 0 <= score (game w) <= 22)
    by (unfold MAX_SNAKE_LENGTH in *; destruct (status (game w)); lia).
  assert (Hrange : 1 <= speed (game w) < 256)
    by (rewrite Hsp; Z.to_euclidean_division_equations; lia).
  split; [done|]. apply getStepLengthMs_spec. lia.
Qed.

(** At speeds 1 and 5 the intervals are 1000 ms and 200 ms. *)
Lemma C8_witness :
  let g := game initialWorld in
  let g2 := set_speed 5 g in
  getStepLengthMs g = Z.max 200 (1000 - 200 * (1 - 1)) /\
  getStepLengthMs g2 <= getStepLengthMs g /\
  200 <= getStepLengthMs g2.
Proof.
  cbv zeta.
  assert (H1 : 0 <= speed (game initialWorld)
               <= speed (set_speed 5 (game initialWorld))) by (cbn; lia).
  assert (H2 : speed (set_speed 5 (game initialWorld)) < 256) by (cbn; lia).
  destruct (C8_step_interval _ _ H1 H2) as (Heq & Hmono & Hfloor & _).
  split; [exact Heq|]. split; [exact Hmono | exact Hfloor].
Defined.

(** ** The collapsed step *)

Lemma getRandomCoords_specSample tape g :
  wellFormed g -> getRandomCoords tape g = specSample tape (occupied g).
Proof.
  intros Hwf. remember (length tape) as n eqn:Hn. revert tape Hn.
  induction n as [n IH] using lt_wf_ind. intros tape Hn.
  destruct tape as [|r [|k rest]]; cbn [getRandomCoords specSample]; try done.
  rewrite coordsInSnake_spec by done. cbn [rbind]. rewrite !rand_cell_mod.
  case_bool_decide; [|done].
  apply (IH (length rest)); [subst n; cbn; lia | done].
Qed.

(** The state the step of section 4.1 works on, in terms of the game after
    [turnSnake]. *)
Lemma observe_turned w :
  let g := turnSnake (currentTurn w) (game w) in
  engHead (observe w) = head (snake g) /\
  engTail (observe w) = tailCells g /\
  turnTable (engDirection (observe w)) (engPending (observe w))
  = direction (snake g) /\
  engFood (observe w) = foodCoords g /\
  engSpeed (observe w) = speed g /\
  engStatus (observe w) = status g /\
  engScore (observe w) = score g.
Proof. cbv zeta. rewrite turnSnake_spec. by destruct w as [[[h tl n d] f sp st sc] t]. Qed.

Lemma tailCells_length g :
  wellFormed g -> Z.of_nat (length (tailCells g)) = tailLength (snake g).
Proof.
  intros [Hlen Hn]. unfold tailCells, MAX_SNAKE_LENGTH in *.
  rewrite length_take. lia.
Qed.

Lemma tailCells_single g :
  wellFormed g -> tailLength (snake g) = 1 ->
  exists t0, tailCells g = [t0] /\ vacated g = Some t0.
Proof.
  intros Hwf Hone. pose proof (tailCells_length g Hwf) as Hlen.
  destruct (tailCells_vacated g Hwf) as (t0 & Hv & Htl).
  exists t0. split; [|done].
  destruct (tailCells g) as [|x [|y rest]]; cbn in *; [lia | congruence | lia].
Qed.

(** Where the program's step is the step of section 4.1: while the tail has
    a single segment, so that [tail[0]] is both its front and its trailing
    end, and whenever the candidate is the food cell, so that the snake
    extends. *)
Lemma stepGame_agrees_with_specStep (w : World) (tape : list N) :
  reachable w -> status (game w) = ONGOING ->
  let g := turnSnake (currentTurn w) (game w) in
  tailLength (snake g) = 1 \/ getNextMove g = foodCoords g ->
  observeStep tape w = specStep tape (observe w).
Proof.
  intros Hreach Hst g Hcond.
  pose proof (reachable_invariant w Hreach) as Hinv.
  pose proof (stepGame_cases tape w Hinv Hst) as Hcases.
  cbv zeta in Hcases. fold g in Hcases.
  assert (Hinvg : invariant g) by by apply invariant_turnSnake.
  assert (Hstg : status g = ONGOING) by (subst g; by rewrite turnSnake_spec).
  pose proof Hinvg as [Hwf Hhd _ _ Hnd Hstat _]. rewrite Hstg in Hstat.
  destruct Hstat as (Hmax & Hscore & Hfood).
  destruct (getNextMove_torus g Hhd) as [Hc _].
  pose proof (tailCells_length g Hwf) as Hlen.
  unfold observeStep, specStep, specClassify. cbv zeta.
  destruct (observe_turned w) as (-> & -> & -> & -> & -> & -> & ->).
  fold g. rewrite <- Hc. set (c := getNextMove g) in *.
  change (head (snake g) :: tailCells g) with (occupied g).
  rewrite Hlen.
  destruct (outcomeOf g).
  - (* MOVE *)
    destruct Hcases as (Hhit & Hfd & ->). cbn [rbind].
    destruct Hcond as [Hone|]; [|done].
    destruct (tailCells_single g Hwf Hone) as (t0 & Htl & Hv).
    rewrite (bool_decide_eq_false_2 (c = foodCoords g)) by done.
    assert (Hcls : bool_decide (c ∈ occupied g)
                   && negb (bool_decide (last (tailCells g) = Some c)
                            && negb false) = false).
    { rewrite Htl. cbn [last]. rewrite andb_true_r.
      case_bool_decide as Hin; [|done]. cbn [andb].
      rewrite bool_decide_eq_true_2; [done|].
      destruct (decide (Some c = vacated g)) as [Heq|Hne]; [congruence|].
      destruct Hhit. by apply hitsSnake_iff. }
    rewrite Hcls. unfold observe, specMove. cbn [game currentTurn fst snd].
    rewrite tailCells_afterMove, Htl by done. reflexivity.
  - (* EAT *)
    destruct Hcases as (_ & Hfd & Hlt & ->).
    rewrite (bool_decide_eq_false_2 (c ∈ occupied g)) by congruence.
    rewrite (bool_decide_eq_true_2 (c = foodCoords g)) by done.
    rewrite (bool_decide_eq_false_2 (_ >= _)) by lia. cbn [andb].
    unfold specMove. cbn [fst snd].
    rewrite getRandomCoords_specSample by by apply wellFormed_afterExtend.
    rewrite occupied_afterExtend by done. unfold occupied.
    destruct (specSample _ _) as [[f t]| |]; cbn [rbind]; try done.
    unfold observe, afterEat.
    cbn [game currentTurn snake foodCoords speed status score].
    rewrite <- (tailCells_afterExtend c g) by done. reflexivity.
  - (* COLLISION *)
    destruct Hcases as ((Hin & Hne)%hitsSnake_iff & ->). cbn [rbind].
    destruct Hcond as [Hone|Heq]; [|congruence].
    destruct (tailCells_single g Hwf Hone) as (t0 & Htl & Hv).
    rewrite (bool_decide_eq_true_2 (c ∈ occupied g)) by done.
    rewrite (bool_decide_eq_false_2 (last (tailCells g) = Some c))
      by (rewrite Htl; cbn [last]; congruence).
    done.
  - (* FULL *)
    destruct Hcases as (_ & Hfd & Heq & ->). cbn [rbind].
    rewrite (bool_decide_eq_false_2 (c ∈ occupied g)) by congruence.
    rewrite (bool_decide_eq_true_2 (c = foodCoords g)) by done.
    rewrite (bool_decide_eq_true_2 (_ >= _)) by lia. cbn [andb].
    unfold observe, specMove. cbn [game currentTurn fst snd].
    change (tailCells (set_status WON ?x)) with (tailCells x).
    by rewrite tailCells_afterExtend.
Qed.

(** Where it is not: once the tail has two segments or more, every plain
    move the program makes differs from the plain move of section 4.1, which
    either is a collision there or leaves another tail. *)
Lemma plain_move_departs_from_specStep (w : World) (tape : list N) :
  reachable w -> status (game w) = ONGOING ->
  let g := turnSnake (currentTurn w) (game w) in
  2 <= tailLength (snake g) -> getStepOutcome g = Ok MOVE ->
  observeStep tape w <> specStep tape (observe w).
Proof.
  intros Hreach Hst g Htwo Hout.
  pose proof (reachable_invariant w Hreach) as Hinv.
  pose proof (stepGame_cases tape w Hinv Hst) as Hcases.
  cbv zeta in Hcases. fold g in Hcases.
  assert (Hinvg : invariant g) by by apply invariant_turnSnake.
  assert (Hstg : status g = ONGOING) by (subst g; by rewrite turnSnake_spec).
  pose proof Hinvg as [Hwf Hhd _ _ Hnd Hstat _].
  pose proof (tailCells_length g Hwf) as Hlen.
  rewrite getStepOutcome_spec in Hout by done. injection Hout as Hout.
  rewrite Hout in Hcases. destruct Hcases as (_ & Hfd & Hstep).
  unfold observeStep, specStep, specClassify. cbv zeta.
  destruct (observe_turned w) as (-> & -> & -> & -> & -> & -> & ->).
  fold g. destruct (getNextMove_torus g Hhd) as [<- _].
  rewrite Hstep. cbn [rbind].
  rewrite (bool_decide_eq_false_2 (getNextMove g = foodCoords g)) by done.
  destruct (_ && _).
  - intros Heq.
    apply (f_equal (fun r => match r with
                             | Ok (e, _) => Some (engStatus e)
                             | _ => None
                             end)) in Heq.
    cbn in Heq. congruence.
  - intros Heq.
    apply (f_equal (fun r => match r with
                             | Ok (e, _) => engTail e
                             | _ => []
                             end)) in Heq.
    unfold specMove in Heq. cbn [observe game engTail fst snd] in Heq.
    rename Heq into Htl. rewrite tailCells_afterMove in Htl by done.
    unfold occupied in Hnd. apply NoDup_cons in Hnd as [Hnotin _].
    destruct (tailCells g) as [|t0 [|t1 rest]]; cbn in Hlen, Htl; [lia..|].
    injection Htl as Heq _. apply Hnotin. rewrite <- Heq.
    apply elem_of_cons. right. apply elem_of_cons. by left.
Qed.

(** And a step onto the trailing end of the tail that the program takes for
    a collision is a legal move in section 4.1. *)
Lemma loss_on_trailing_end_departs_from_specStep (w : World) (tape : list N) :
  reachable w -> status (game w) = ONGOING ->
  let g := turnSnake (currentTurn w) (game w) in
  last (tailCells g) = Some (getNextMove g) ->
  getStepOutcome g = Ok COLLISION ->
  exists w' e',
    stepGame tape w = Ok (w', tape) /\ status (game w') = LOST /\
    specStep tape (observe w) = Ok (e', tape) /\ engStatus e' = ONGOING.
Proof.
  intros Hreach Hst g Hlast Hout.
  pose proof (reachable_invariant w Hreach) as Hinv.
  pose proof (stepGame_cases tape w Hinv Hst) as Hcases.
  cbv zeta in Hcases. fold g in Hcases.
  assert (Hinvg : invariant g) by by apply invariant_turnSnake.
  assert (Hstg : status g = ONGOING) by (subst g; by rewrite turnSnake_spec).
  pose proof Hinvg as [Hwf Hhd _ _ Hnd Hstat _]. rewrite Hstg in Hstat.
  destruct Hstat as (Hmax & _ & Hfood).
  rewrite getStepOutcome_spec in Hout by done. injection Hout as Hout.
  rewrite Hout in Hcases. destruct Hcases as ((Hin & _)%hitsSnake_iff & Hstep).
  eexists _, _. split; [exact Hstep|]. split; [done|].
  unfold specStep, specClassify. cbv zeta.
  destruct (observe_turned w) as (-> & -> & -> & -> & -> & -> & ->).
  fold g. destruct (getNextMove_torus g Hhd) as [<- _].
  rewrite (bool_decide_eq_true_2 (last _ = _)) by done.
  rewrite (bool_decide_eq_false_2 (getNextMove g = foodCoords g))
    by congruence.
  cbn [negb andb]. rewrite andb_false_r. done.
Qed.

(** C9.  [getStepOutcome] assigns no global (in the embedding it returns an
    outcome and no game), so [handleStepOutcome] recomputes the candidate
    from the very state that was classified.  But [stepGame] is not the
    step of section 4.1.  Two rounds from [initGame] show it, with the same
    buttons and the same values of [rand()] given to the program and to the
    algorithm of section 4.1.

    In the first the snake eats twice while turning right; up to there the
    two agree.  It then turns towards its trailing segment (2,1): section
    4.1 moves there and stays ONGOING, the program sets the status to LOST.

    In the second the snake eats once and moves on: section 4.1 vacates the
    trailing cell (2,1) and the snake covers (2,4), (2,3), (2,2); the
    program vacates (2,2) and keeps (2,1), leaving a gap. *)
Theorem C9_stepGame_departs_from_collapsed_step :
  let w0 := worldAfter [3; 2]%N [] in
  let w := cornerWorld in
  let v0 := worldAfter sweepFood [] in
  let v := eatenWorld in
  (reachable w /\ status (game w) = ONGOING /\
   specPlay corner (observe w0) = Ok (observe (worldAfter [3; 2]%N corner)) /\
   observe w = specQueueTurn TURN_RIGHT (observe (worldAfter [3; 2]%N corner)) /\
   (exists w', stepGame [] w = Ok (w', []) /\ status (game w') = LOST) /\
   (exists e', specStep [] (observe w) = Ok (e', []) /\
      engStatus e' = ONGOING /\ engHead e' = mkCoords 2 1 /\
      engTail e' = [mkCoords 3 1; mkCoords 3 2; mkCoords 2 2]) /\
   (exists w', play (corner ++ [(TURN_RIGHT, [])]) w0 = Ok w' /\
      status (game w') = LOST) /\
   (exists e', specPlay (corner ++ [(TURN_RIGHT, [])]) (observe w0) = Ok e' /\
      engStatus e' = ONGOING) /\
   observeStep [] w <> specStep [] (observe w)) /\
  (reachable v /\ status (game v) = ONGOING /\
   specPlay eatenOnce (observe v0) = Ok (observe v) /\
   (exists v', stepGame [] v = Ok (v', []) /\
      occupied (game v') = [mkCoords 2 4; mkCoords 2 1; mkCoords 2 3]) /\
   (exists e', specStep [] (observe v) = Ok (e', []) /\
      engHead e' :: engTail e' = [mkCoords 2 4; mkCoords 2 3; mkCoords 2 2]) /\
   (exists v', play (eatenOnce ++ [(TURN_NONE, [])]) v0 = Ok v' /\
      mkCoords 2 1 ∈ occupied (game v') /\
      (mkCoords 2 2 ∉ occupied (game v'))) /\
   (exists e', specPlay (eatenOnce ++ [(TURN_NONE, [])]) (observe v0) = Ok e' /\
      (mkCoords 2 1 ∉ (engHead e' :: engTail e')) /\
      mkCoords 2 2 ∈ (engHead e' :: engTail e')) /\
   observeStep [] v <> specStep [] (observe v)).
Proof.
  cbv zeta. split.
  - split.
    { refine (reach_buttonB (worldAfter [3; 2]%N corner) _).
      apply (run_reachable [3; 2]%N corner). reflexivity. }
    split; [reflexivity|]. split; [by vm_compute|]. split; [reflexivity|].
    split; [eexists; split; [vm_compute; reflexivity | reflexivity]|].
    split; [eexists; split; [vm_compute; reflexivity | by vm_compute]|].
    split; [eexists; split; [vm_compute; reflexivity | reflexivity]|].
    split; [eexists; split; [vm_compute; reflexivity | reflexivity]|].
    vm_compute. discriminate.
  - split; [apply (run_reachable sweepFood eatenOnce); reflexivity|].
    split; [reflexivity|]. split; [by vm_compute|].
    split; [eexists; split; [vm_compute; reflexivity | reflexivity]|].
    split; [eexists; split; [vm_compute; reflexivity | reflexivity]|].
    split; [eexists; split; [vm_compute; reflexivity | split; compute_done]|].
    split; [eexists; split; [vm_compute; reflexivity | split; compute_done]|].
    vm_compute. discriminate.
Qed.

(** ** The score display *)

Lemma displayScore_inGrid g :
  0 <= score g <= 22 -> Forall pixelInGrid (displayScore g).
Proof.
  intros Hs. unfold displayScore. cbv zeta.
  remember (score g) as s eqn:Heq. clear Heq.
  assert (Hcases : exists n : nat, s = Z.of_nat n /\ (n <= 22)%nat)
    by (exists (Z.to_nat s); lia).
  destruct Hcases as (n & -> & Hn). clear Hs.
  do 23 (destruct n as [|n]; [vm_compute; repeat constructor; discriminate|]).
  lia.
Qed.

(** C10. In every reachable state with status ONGOING the score is
    tailLength - 1; in every reachable state the score is between 0 and
    MAX_SNAKE_LENGTH - 2, and every pixel [displayScore] sets has its row
    and its column in [0, 5). *)
Theorem C10_score_follows_tail (w : World) :
  reachable w ->
  (status (game w) = ONGOING ->
   score (game w) = tailLength (snake (game w)) - 1) /\
  0 <= score (game w) <= MAX_SNAKE_LENGTH - 2 /\
  Forall pixelInGrid (displayScore (game w)).
Proof.
  intros Hreach.
  pose proof (reachable_invariant w Hreach) as [[_ Hn] _ _ _ _ Hstat _].
  assert (Hscore : 0 <= score (game w) <= MAX_SNAKE_LENGTH - 2)
    by (unfold MAX_SNAKE_LENGTH in *; destruct (status (game w)); lia).
  split; [|split; [done|]].
  - intros Hst. rewrite Hst in Hstat. tauto.
  - apply displayScore_inGrid. unfold MAX_SNAKE_LENGTH in *. lia.
Qed.

(** At the end of the sweep the score is 22: four full rows and two pixels
    of the fifth. *)
Lemma C10_witness :
  let w := sweepWorld23 in
  reachable w /\ score (game w) = 22 /\
  0 <= score (game w) <= MAX_SNAKE_LENGTH - 2 /\
  Forall pixelInGrid (displayScore (game w)).
Proof.
  assert (Hreach : reachable sweepWorld23)
    by (apply (run_reachable sweepFood sweep); reflexivity).
  destruct (C10_score_follows_tail sweepWorld23 Hreach) as (_ & Hrange & Hpix).
  split; [exact Hreach|]. split; [reflexivity|].
  split; [exact Hrange | exact Hpix].
Defined.

(** * Further properties of the code *)

(** ** Membership in the snake *)

Lemma coordsInSnake_loop_overrun (n k : nat) (t : list Coords) c :
  length t = 24%nat -> (k <= 24)%nat -> (24 < k + n)%nat ->
  coordsInSnake_loop n (Z.of_nat k) c t
  = if bool_decide (c ∈ drop k t) then Ok true else OutOfBounds.
Proof.
  intros Hlen. revert k. induction n as [|n IH]; intros k Hk Hover; [lia|].
  cbn [coordsInSnake_loop].
  destruct (decide (k = 24%nat)) as [->|Hne].
  - rewrite drop_ge by lia.
    rewrite bool_decide_eq_false_2 by apply not_elem_of_nil. done.
  - destruct (lookup_lt_is_Some_2 t k) as [x Hx]; [lia|].
    rewrite (arr_get_lookup _ _ _ Hx) by lia. cbn [rbind].
    rewrite (drop_S _ _ _ Hx), coordsEqual_decide.
    replace (Z.of_nat k + 1) with (Z.of_nat (S k)) by lia.
    case_bool_decide as Hc.
    + subst. rewrite bool_decide_eq_true_2; [done|]. apply elem_of_cons; auto.
    + rewrite IH by lia. apply (f_equal (fun b : bool => if b then _ else _)).
      apply bool_decide_ext. rewrite elem_of_cons. tauto.
Qed.

(** X1. With the array whole, [coordsInSnake] answers whether the cell is
    the head or one of the first [tailLength] slots whenever [tailLength] is
    at most MAX_SNAKE_LENGTH; a count of zero or less compares the head
    only.  With a larger count the loop runs past the array: it still
    answers true when the cell is the head or anywhere in the array, and
    otherwise reads [tail[24]]. *)
Theorem X1_coordsInSnake_membership_and_overrun (c : Coords) (g : Game) :
  length (tail (snake g)) = Z.to_nat MAX_SNAKE_LENGTH ->
  (tailLength (snake g) <= MAX_SNAKE_LENGTH ->
   coordsInSnake c g = Ok (bool_decide (c ∈ occupied g))) /\
  (tailLength (snake g) <= 0 ->
   coordsInSnake c g = Ok (bool_decide (c = head (snake g)))) /\
  (MAX_SNAKE_LENGTH < tailLength (snake g) ->
   coordsInSnake c g
   = if bool_decide (c ∈ head (snake g) :: tail (snake g)) then Ok true
     else OutOfBounds).
Proof.
  unfold MAX_SNAKE_LENGTH. intros Hlen.
  assert (Hsmall : tailLength (snake g) <= 24 ->
                   coordsInSnake c g = Ok (bool_decide (c ∈ occupied g))).
  { intros Hn. unfold coordsInSnake, occupied, tailCells.
    rewrite coordsEqual_decide. case_bool_decide as Hc.
    - subst. rewrite bool_decide_eq_true_2; [done|]. apply elem_of_cons; auto.
    - rewrite (coordsInSnake_loop_spec _ 0) by (simpl; lia).
      rewrite drop_0. f_equal. apply bool_decide_ext.
      rewrite elem_of_cons. tauto. }
  split; [exact Hsmall|]. split.
  - intros Hn. rewrite Hsmall by lia. f_equal. apply bool_decide_ext.
    unfold occupied, tailCells.
    replace (Z.to_nat (tailLength (snake g))) with 0%nat by lia.
    rewrite take_0, list_elem_of_singleton. done.
  - intros Hn. clear Hsmall. unfold coordsInSnake. rewrite coordsEqual_decide.
    case_bool_decide as Hc.
    + subst. rewrite bool_decide_eq_true_2; [done|]. apply elem_of_cons; auto.
    + rewrite (coordsInSnake_loop_overrun _ 0) by (simpl; lia).
      rewrite drop_0. apply (f_equal (fun b : bool => if b then _ else _)).
      apply bool_decide_ext. rewrite elem_of_cons. tauto.
Qed.

(** The initial snake: (2,1) is a tail cell, (2,3) is free; with the count
    pushed past the array the free cell makes the loop read [tail[24]]. *)
Lemma X1_witness :
  let g := game initialWorld in
  let g' := set_snake (set_tailLength 25 (snake g)) g in
  coordsInSnake (mkCoords 2 1) g = Ok true /\
  coordsInSnake (mkCoords 2 3) g = Ok false /\
  coordsInSnake (mkCoords 0 0) g' = Ok true /\
  coordsInSnake (mkCoords 2 3) g' = OutOfBounds.
Proof.
  intros g g'.
  assert (Hlen : length (tail (snake g)) = Z.to_nat MAX_SNAKE_LENGTH)
    by reflexivity.
  assert (Hlen' : length (tail (snake g')) = Z.to_nat MAX_SNAKE_LENGTH)
    by reflexivity.
  split; [|split; [|split]].
  - exact (proj1 (X1_coordsInSnake_membership_and_overrun
                    (mkCoords 2 1) g Hlen) ltac:(by vm_compute)).
  - exact (proj1 (X1_coordsInSnake_membership_and_overrun
                    (mkCoords 2 3) g Hlen) ltac:(by vm_compute)).
  - exact (proj2 (proj2 (X1_coordsInSnake_membership_and_overrun
                           (mkCoords 0 0) g' Hlen')) ltac:(by vm_compute)).
  - exact (proj2 (proj2 (X1_coordsInSnake_membership_and_overrun
                           (mkCoords 2 3) g' Hlen')) ltac:(by vm_compute)).
Defined.

(** ** The free-cell sampler *)

Lemma getRandomCoords_consumes tape g c tape' :
  getRandomCoords tape g = Ok (c, tape') ->
  exists rejected r k,
    tape = rejected ++ r :: k :: tape' /\
    c = mkCoords (rand_cell r) (rand_cell k) /\
    Nat.Even (length rejected) /\
    getRandomCoords (r :: k :: tape') g = Ok (c, tape').
Proof.
  remember (length tape) as n eqn:Hn. revert tape Hn.
  induction n as [n IH] using lt_wf_ind. intros tape Hn.
  destruct tape as [|r [|k rest]]; try done.
  intros Hget. pose proof Hget as Hget'. cbn [getRandomCoords] in Hget.
  destruct (coordsInSnake _ g) as [[|]| |]; cbn [rbind] in Hget; try done.
  - destruct (IH (length rest) ltac:(subst n; cbn; lia) rest eq_refl Hget)
      as (rejected & r' & k' & -> & -> & Heven & Hlast).
    exists (r :: k :: rejected), r', k'. split; [done|]. split; [done|].
    split; [|done].
    cbn [length]. destruct Heven as [m ->]. exists (S m). lia.
  - injection Hget as <- <-. exists [], r, k.
    split; [done|]. split; [done|]. split; [by exists 0%nat | done].
Qed.

(** X2. When [getRandomCoords] returns, it has thrown away an even number of
    [rand()] values and built the result from the next two, row first, each
    reduced modulo GRID_SIZE; those two alone would have given the same
    result, and the values after them are left for later calls.  With the
    array whole and the count within it, the cell lies in the grid and is no
    cell of the snake. *)
Theorem X2_getRandomCoords_result (tape : list N) (g : Game) (c : Coords)
    (tape' : list N) :
  getRandomCoords tape g = Ok (c, tape') ->
  (exists rejected r k,
     tape = rejected ++ r :: k :: tape' /\
     c = mkCoords (Z.of_N r mod GRID_SIZE) (Z.of_N k mod GRID_SIZE) /\
     Nat.Even (length rejected) /\
     getRandomCoords (r :: k :: tape') g = Ok (c, tape')) /\
  (wellFormed g -> inGrid c /\ c ∉ occupied g).
Proof.
  intros Hget. split; [|intros Hwf; by eapply getRandomCoords_spec].
  destruct (getRandomCoords_consumes _ _ _ _ Hget)
    as (rejected & r & k & -> & -> & Heven & Hlast).
  exists rejected, r, k. by rewrite <- !rand_cell_mod.
Qed.

(** On the initial snake the values 7, 7 name the head (2,2) and 12, 6 the
    tail cell (2,1); both pairs are thrown away and 9, 13 give (4,3). *)
Lemma X2_witness :
  let g := game initialWorld in
  getRandomCoords [7; 7; 12; 6; 9; 13; 1]%N g = Ok (mkCoords 4 3, [1%N]) /\
  inGrid (mkCoords 4 3) /\ mkCoords 4 3 ∉ occupied g.
Proof.
  intros g.
  assert (Hget : getRandomCoords [7; 7; 12; 6; 9; 13; 1]%N g
                 = Ok (mkCoords 4 3, [1%N])) by reflexivity.
  split; [exact Hget|].
  apply (X2_getRandomCoords_result _ _ _ _ Hget).
  split; [reflexivity | by vm_compute].
Defined.

(** X3. When the snake covers the whole grid, the sampling loop has no cell
    to return: whatever [rand()] yields, [getRandomCoords] uses up every
    value and asks for more. *)
Theorem X3_getRandomCoords_full_grid_never_returns (g : Game) :
  wellFormed g -> gridFull g ->
  forall tape, getRandomCoords tape g = RandExhausted.
Proof.
  intros Hwf Hfull tape. remember (length tape) as n eqn:Hn. revert tape Hn.
  induction n as [n IH] using lt_wf_ind. intros tape Hn.
  destruct tape as [|r [|k rest]]; cbn [getRandomCoords]; try done.
  rewrite coordsInSnake_spec by done. cbn [rbind].
  rewrite bool_decide_eq_true_2.
  - apply (IH (length rest)); [subst n; cbn; lia | done].
  - apply Hfull. split; apply rand_cell_range.
Qed.

Lemma gridCells_complete c : inGrid c -> c ∈ gridCells.
Proof.
  intros (r & k & -> & Hr & Hk)%inGrid_cases. unfold gridCells.
  apply list_elem_of_bind. exists r. split; [|apply elem_of_seq; lia].
  apply list_elem_of_bind. exists k. split; [|apply elem_of_seq; lia].
  by apply list_elem_of_singleton.
Qed.

Lemma gridFull_from_cells g :
  Forall (fun c => c ∈ occupied g) gridCells -> gridFull g.
Proof.
  intros Hall c Hc. rewrite Forall_forall in Hall.
  by apply Hall, gridCells_complete.
Qed.

(** At the end of the sweep the snake covers the grid: no values of
    [rand()] would let the sampler return. *)
Lemma X3_witness :
  let g := game sweepWorld23 in
  wellFormed g /\ gridFull g /\
  getRandomCoords [0; 0; 1; 1; 2; 2; 3; 3; 4; 4]%N g = RandExhausted.
Proof.
  intros g.
  assert (Hwf : wellFormed g) by (split; [reflexivity | by vm_compute]).
  assert (Hfull : gridFull g).
  { apply gridFull_from_cells. vm_compute.
    repeat first [apply Forall_nil_2 | apply Forall_cons_2];
      repeat first [apply list_elem_of_here | apply list_elem_of_further]. }
  split; [exact Hwf|]. split; [exact Hfull|].
  exact (X3_getRandomCoords_full_grid_never_returns g Hwf Hfull _).
Defined.

(** ** Wrapping at the edges *)

Ltac split_comparisons :=
  repeat match goal with
         | |- context [?a <? ?b] => destruct (Z.ltb_spec a b)
         | |- context [?a >=? ?b] =>
             rewrite (Z.geb_leb a b); destruct (Z.leb_spec b a)
         | |- context [?a =? ?b] => destruct (Z.eqb_spec a b)
         end.

Lemma isOutOfBounds_inGrid c : isOutOfBounds c = false <-> inGrid c.
Proof.
  destruct c as [r k]. unfold isOutOfBounds, inGrid, GRID_SIZE. cbn [row col].
  split_comparisons; cbn [orb]; split; intros; try done; lia.
Qed.

Lemma wraparound_inGrid c : inGrid (wraparound c).
Proof.
  destruct c as [r k]. unfold wraparound, inGrid, GRID_SIZE. cbn [row col].
  split_comparisons; cbn [row col]; lia.
Qed.

Lemma wraparound_id c : inGrid c -> wraparound c = c.
Proof.
  destruct c as [r k]. unfold wraparound, inGrid, GRID_SIZE. cbn [row col].
  intros Hc. split_comparisons; try lia; done.
Qed.

(** X4. [isOutOfBounds] is false exactly on the cells of the grid.
    [wraparound] returns a cell of the grid for every argument, leaves the
    cells of the grid as they are, and so does nothing when applied again.
    It does not reduce modulo the grid size: a component below 0 becomes
    GRID_SIZE - 1 and one at or above GRID_SIZE becomes 0, however far out
    it is. *)
Theorem X4_wraparound_lands_in_grid (c : Coords) :
  (isOutOfBounds c = false <-> inGrid c) /\
  inGrid (wraparound c) /\
  (inGrid c -> wraparound c = c) /\
  wraparound (wraparound c) = wraparound c /\
  (row c < 0 -> row (wraparound c) = GRID_SIZE - 1) /\
  (GRID_SIZE <= row c -> row (wraparound c) = 0) /\
  (col c < 0 -> col (wraparound c) = GRID_SIZE - 1) /\
  (GRID_SIZE <= col c -> col (wraparound c) = 0).
Proof.
  split; [apply isOutOfBounds_inGrid|]. split; [apply wraparound_inGrid|].
  split; [apply wraparound_id|].
  split; [apply wraparound_id, wraparound_inGrid|].
  destruct c as [r k]. unfold wraparound, GRID_SIZE. cbn [row col].
  repeat split; intros; split_comparisons; cbn [row col]; lia.
Qed.

(** ** The candidate cell *)

Lemma getNextMove_inGrid g : inGrid (getNextMove g).
Proof.
  unfold getNextMove. cbv zeta.
  destruct (isOutOfBounds _) eqn:Hout.
  - apply wraparound_inGrid.
  - by apply isOutOfBounds_inGrid.
Qed.

(** X5. Whatever the head and the direction, the cell [getNextMove] returns
    lies in the grid.  From a head in the grid it is never the head itself,
    and after the head has moved there and the snake has turned left, right
    or not at all, the next candidate is never the cell the head came from:
    the snake cannot reverse into its own neck. *)
Theorem X5_getNextMove_in_grid_and_no_reversal (g : Game) (t : Turn) :
  inGrid (getNextMove g) /\
  (inGrid (head (snake g)) ->
   getNextMove g <> head (snake g) /\
   getNextMove
     (turnSnake t (set_snake (set_head (getNextMove g) (snake g)) g))
   <> head (snake g)).
Proof.
  split; [apply getNextMove_inGrid|].
  intros (r & k & Hh & Hr & Hk)%inGrid_cases.
  rewrite turnSnake_spec. unfold getNextMove.
  cbn [snake head direction set_snake set_head set_direction].
  rewrite Hh. clear Hh.
  destruct (direction (snake g)), t;
    do 5 (try (destruct r as [|r]; [|try lia]));
    do 5 (try (destruct k as [|k]; [|try lia]));
    try lia; by vm_compute.
Qed.

(** From the corner (0,0) going UP the candidate is (4,0); after a right
    turn there the next candidate is (4,1), not (0,0). *)
Lemma X5_witness :
  let g := set_snake (mkSnake (mkCoords 0 0) (tail (snake (game initialWorld)))
                        1 UP) (game initialWorld) in
  getNextMove g = mkCoords 4 0 /\
  getNextMove g <> head (snake g) /\
  getNextMove
    (turnSnake TURN_RIGHT (set_snake (set_head (getNextMove g) (snake g)) g))
  <> head (snake g).
Proof.
  intros g. split; [reflexivity|].
  apply (X5_getNextMove_in_grid_and_no_reversal g TURN_RIGHT).
  by vm_compute.
Defined.

(** ** Turning *)

(** X6. [turnSnake] changes nothing but the direction.  A left or right turn
    gives a direction that is neither the old one nor its opposite; a left
    turn undoes a right turn and the other way round, two equal turns give
    the opposite direction, and four give the old one. *)
Theorem X6_turnSnake_quarter_turns (g : Game) :
  let d := direction (snake g) in
  (forall t,
     turnSnake t g = set_snake (set_direction (direction (snake (turnSnake t g)))
                                  (snake g)) g /\
     direction (snake (turnSnake t g)) <> opposite d /\
     (t <> TURN_NONE -> direction (snake (turnSnake t g)) <> d)) /\
  turnSnake TURN_NONE g = g /\
  turnSnake TURN_RIGHT (turnSnake TURN_LEFT g) = g /\
  turnSnake TURN_LEFT (turnSnake TURN_RIGHT g) = g /\
  (forall t, t <> TURN_NONE ->
     direction (snake (turnSnake t (turnSnake t g))) = opposite d /\
     turnSnake t (turnSnake t (turnSnake t (turnSnake t g))) = g).
Proof.
  destruct g as [[h tl n d] f sp st sc]. cbv zeta.
  split; [|split; [done|split; [|split]]].
  - intros t. by destruct t, d.
  - by destruct d.
  - by destruct d.
  - intros t Ht. by destruct t, d.
Qed.

(** ** Moving the body: bounds and frame *)

Lemma arr_set_length t i c t' :
  arr_set t i c = Ok t' -> length t' = length t.
Proof.
  unfold arr_set. repeat case_bool_decide; try done.
  intros [= <-]. apply length_insert.
Qed.

Lemma shift_down_length n i t t' :
  shift_down n i t = Ok t' -> length t' = length t.
Proof.
  revert i t. induction n as [|n IH]; intros i t; cbn [shift_down].
  - by intros [= <-].
  - destruct (arr_get t (i + 1)) as [c| |]; cbn [rbind]; try done.
    destruct (arr_set t i c) as [t1| |] eqn:Hset; cbn [rbind]; try done.
    intros Hrec%IH. apply arr_set_length in Hset. congruence.
Qed.

Lemma shift_up_length n i t t' :
  shift_up n i t = Ok t' -> length t' = length t.
Proof.
  revert i t. induction n as [|n IH]; intros i t; cbn [shift_up].
  - by intros [= <-].
  - destruct (arr_get t (i - 1)) as [c| |]; cbn [rbind]; try done.
    destruct (arr_set t i c) as [t1| |] eqn:Hset; cbn [rbind]; try done.
    intros Hrec%IH. apply arr_set_length in Hset. congruence.
Qed.

Lemma shift_down_overrun (n k : nat) (t : list Coords) :
  length t = 24%nat -> (k <= 23)%nat -> (24 <= k + n)%nat ->
  shift_down n (Z.of_nat k) t = OutOfBounds.
Proof.
  revert k t. induction n as [|n IH]; intros k t Hlen Hk Hover; [lia|].
  cbn [shift_down].
  replace (Z.of_nat k + 1) with (Z.of_nat (S k)) by lia.
  destruct (decide (k = 23%nat)) as [->|Hne].
  - unfold arr_get, MAX_SNAKE_LENGTH.
    rewrite bool_decide_eq_false_2 by lia. done.
  - destruct (lookup_lt_is_Some_2 t (S k)) as [x Hx]; [lia|].
    rewrite (arr_get_lookup _ _ _ Hx) by lia. cbn [rbind].
    rewrite arr_set_insert by lia. cbn [rbind].
    apply IH; [by rewrite length_insert | lia | lia].
Qed.

(** X7. With the array whole, [moveSnake] stays inside it exactly in these
    cases: without extension when tailLength is between 1 and
    MAX_SNAKE_LENGTH, with extension when tailLength is at most
    MAX_SNAKE_LENGTH - 1.  A move without extension at tailLength 0 or less
    writes [tail[tailLength - 1]] below the array, and an extension at
    MAX_SNAKE_LENGTH writes [tail[MAX_SNAKE_LENGTH]] above it.  An extension
    at tailLength 0 or less shifts nothing and writes [tail[0]] only. *)
Theorem X7_moveSnake_array_bounds (c : Coords) (g : Game) :
  length (tail (snake g)) = Z.to_nat MAX_SNAKE_LENGTH ->
  (1 <= tailLength (snake g) <= MAX_SNAKE_LENGTH ->
   moveSnake c false g = Ok (afterMove c g)) /\
  (~ 1 <= tailLength (snake g) <= MAX_SNAKE_LENGTH ->
   moveSnake c false g = OutOfBounds) /\
  (1 <= tailLength (snake g) <= MAX_SNAKE_LENGTH - 1 ->
   moveSnake c true g = Ok (afterExtend c g)) /\
  (tailLength (snake g) <= 0 ->
   exists g', moveSnake c true g = Ok g' /\
     tailCells g' = take (Z.to_nat (tailLength (snake g) + 1)) [head (snake g)]) /\
  (MAX_SNAKE_LENGTH <= tailLength (snake g) ->
   moveSnake c true g = OutOfBounds).
Proof.
  intros Hlen.
  split; [intros Hn; by apply moveSnake_move_spec|].
  split; [|split; [intros Hn; apply moveSnake_extend_spec; [split|]; lia|]].
  - intros Hn. unfold moveSnake, MAX_SNAKE_LENGTH in *. cbn [negb].
    destruct (decide (tailLength (snake g) <= 0)) as [Hle|Hgt].
    + replace (Z.to_nat (tailLength (snake g) - 1)) with 0%nat by lia.
      cbn [shift_down rbind]. unfold arr_set.
      rewrite bool_decide_eq_false_2 by lia. done.
    + rewrite (shift_down_overrun _ 0) by (simpl; lia). done.
  - split.
    + intros Hn. unfold moveSnake, MAX_SNAKE_LENGTH in *. cbn [negb].
      replace (Z.to_nat (tailLength (snake g))) with 0%nat by lia.
      cbn [shift_up rbind].
      rewrite (arr_set_insert _ 0%nat) by lia. cbn [rbind].
      eexists. split; [done|]. unfold tailCells. cbn.
      destruct (tail (snake g)) as [|t0 rest]; [cbn in Hlen; lia|].
      destruct (Z.to_nat (tailLength (snake g) + 1)) as [|[|m]] eqn:E;
        [done|done|lia].
    + intros Hn. unfold moveSnake, MAX_SNAKE_LENGTH in *. cbn [negb].
      destruct (Z.to_nat (tailLength (snake g))) as [|n] eqn:Hnat; [lia|].
      cbn [shift_up]. unfold arr_get, arr_set, MAX_SNAKE_LENGTH.
      destruct (decide (tailLength (snake g) = 24)) as [Heq|Hne].
      * rewrite Heq. rewrite bool_decide_eq_true_2 by lia.
        destruct (lookup_lt_is_Some_2 (tail (snake g)) (Z.to_nat (24 - 1)))
          as [x ->]; [lia|].
        cbn [rbind]. rewrite bool_decide_eq_false_2 by lia. done.
      * rewrite bool_decide_eq_false_2 by lia. done.
Qed.

(** The won game at the end of the sweep has all 24 slots in use: a plain
    move is still possible, an extension is not. *)
Lemma X7_witness :
  let g := game sweepWorld23 in
  let c := mkCoords 1 1 in
  moveSnake c false g = Ok (afterMove c g) /\
  moveSnake c true g = OutOfBounds.
Proof.
  intros g c.
  assert (Hlen : length (tail (snake g)) = Z.to_nat MAX_SNAKE_LENGTH)
    by reflexivity.
  destruct (X7_moveSnake_array_bounds c g Hlen) as (Hmove & _ & _ & _ & Hext).
  split; [apply Hmove; by vm_compute | apply Hext; by vm_compute].
Defined.

Lemma moveSnake_frame (c : Coords) (extend : bool) (g g' : Game) :
  moveSnake c extend g = Ok g' ->
  head (snake g') = c /\
  tailLength (snake g')
  = (if extend then tailLength (snake g) + 1 else tailLength (snake g)) /\
  length (tail (snake g')) = length (tail (snake g)) /\
  direction (snake g') = direction (snake g) /\
  foodCoords g' = foodCoords g /\ speed g' = speed g /\
  status g' = status g /\ score g' = score g.
Proof.
  unfold moveSnake. destruct extend; cbn [negb].
  - destruct (shift_up _ _ _) as [t| |] eqn:Hshift; cbn [rbind]; try done.
    destruct (arr_set t 0 _) as [t'| |] eqn:Hset; cbn [rbind]; try done.
    intros [= <-]. cbn. repeat split.
    apply shift_up_length in Hshift. apply arr_set_length in Hset. congruence.
  - destruct (shift_down _ _ _) as [t| |] eqn:Hshift; cbn [rbind]; try done.
    destruct (arr_set t _ _) as [t'| |] eqn:Hset; cbn [rbind]; try done.
    intros [= <-]. cbn. repeat split.
    apply shift_down_length in Hshift. apply arr_set_length in Hset.
    congruence.
Qed.


(** X8. Whenever [moveSnake] returns, the head is the given cell, tailLength
    has grown by one with extension and not at all without, the array has
    kept its size, and the direction, the food, the speed, the status and
    the score are untouched. *)
Theorem X8_moveSnake_frame (c : Coords) (extend : bool) (g g' : Game) :
  moveSnake c extend g = Ok g' ->
  head (snake g') = c /\
  tailLength (snake g')
  = (if extend then tailLength (snake g) + 1 else tailLength (snake g)) /\
  length (tail (snake g')) = length (tail (snake g)) /\
  direction (snake g') = direction (snake g) /\
  foodCoords g' = foodCoords g /\ speed g' = speed g /\
  status g' = status g /\ score g' = score g.
Proof. apply moveSnake_frame. Qed.

(** A plain move of the initial snake to (2,3). *)
Lemma X8_witness :
  let g := game initialWorld in
  exists g', moveSnake (mkCoords 2 3) false g = Ok g' /\
    head (snake g') = mkCoords 2 3 /\ tailLength (snake g') = 1 /\
    foodCoords g' = foodCoords g /\ score g' = score g.
Proof.
  intros g. eexists. split; [vm_compute; reflexivity|].
  pose proof (X8_moveSnake_frame (mkCoords 2 3) false g _ eq_refl)
    as (Hh & Hn & _ & _ & Hf & _ & _ & Hs).
  split; [exact Hh|]. split; [exact Hn|]. split; [exact Hf | exact Hs].
Defined.

(** ** Steps *)

Lemma handleStepOutcome_status tape o g g' tape' :
  handleStepOutcome tape o g = Ok (g', tape') ->
  status g' = match o with
              | MOVE | EAT => status g
              | COLLISION => LOST
              | FULL => WON
              end.
Proof.
  unfold handleStepOutcome, placeFood. destruct o.
  - destruct (moveSnake _ false g) as [g1| |] eqn:Hmove; cbn [rbind]; try done.
    intros [= <- <-]. apply moveSnake_frame in Hmove. tauto.
  - destruct (moveSnake _ true g) as [g1| |] eqn:Hmove; cbn [rbind]; try done.
    destruct (getRandomCoords tape g1) as [[f t]| |]; cbn [rbind]; try done.
    intros [= <- <-]. apply moveSnake_frame in Hmove.
    destruct (_ =? 0); cbn; tauto.
  - by intros [= <- <-].
  - destruct (moveSnake _ true g) as [g1| |] eqn:Hmove; cbn [rbind]; try done.
    by intros [= <- <-].
Qed.

(** X9. [stepGame] has no guard on the status, but no step ever sets it to
    ONGOING: from any state at all, a step that returns with status ONGOING
    started with status ONGOING.  Only [initGame] makes a game ongoing. *)
Theorem X9_stepGame_never_revives (tape : list N) (w w' : World)
    (tape' : list N) :
  stepGame tape w = Ok (w', tape') ->
  status (game w') = ONGOING ->
  status (game w) = ONGOING.
Proof.
  unfold stepGame.
  destruct (getStepOutcome _) as [o| |]; cbn [rbind]; try done.
  destruct (handleStepOutcome _ _ _) as [[g t]| |] eqn:Hhandle;
    cbn [rbind]; try done.
  intros [= <- <-]. apply handleStepOutcome_status in Hhandle. cbn [game].
  rewrite Hhandle, turnSnake_spec. by destruct o.
Qed.

(** A lost game that is stepped all the same stays lost while the snake
    moves on. *)
Lemma X9_witness :
  let w := mkWorld (set_status LOST (game initialWorld)) TURN_NONE in
  exists w', stepGame [] w = Ok (w', []) /\
    head (snake (game w')) = mkCoords 2 3 /\ status (game w') = LOST.
Proof.
  intros w. eexists. split; [vm_compute; reflexivity|].
  split; [reflexivity|].
  destruct (status (game _)) eqn:Hst; [|discriminate Hst|reflexivity].
  discriminate (X9_stepGame_never_revives [] w _ [] eq_refl Hst).
Defined.

Lemma stepGame_effect tape w w' tape' :
  invariant (game w) -> status (game w) = ONGOING ->
  stepGame tape w = Ok (w', tape') ->
  let g := game w in
  let g' := game w' in
  tailLength (snake g) <= tailLength (snake g') <= tailLength (snake g) + 1 /\
  score g <= score g' <= score g + 1 /\
  speed g <= speed g' <= speed g + 1 /\
  (score g' = score g + 1 ->
   tailLength (snake g') = tailLength (snake g) + 1 /\ status g' = ONGOING) /\
  exists used,
    tape = used ++ tape' /\ Nat.Even (length used) /\
    (used <> [] <-> score g' = score g + 1).
Proof.
  intros Hinv Hst Hstep.
  pose proof (stepGame_cases tape w Hinv Hst) as Hcases. cbv zeta in Hcases.
  set (g1 := turnSnake (currentTurn w) (game w)) in *.
  assert (Hsame : tailLength (snake g1) = tailLength (snake (game w)) /\
                  score g1 = score (game w) /\ speed g1 = speed (game w) /\
                  status g1 = status (game w))
    by (subst g1; by rewrite turnSnake_spec).
  destruct Hsame as (Htl & Hsc & Hsp & Hstat).
  assert (Hnil : forall x : Z, ([] : list N) <> [] <-> x = x + 1)
    by (intros x; split; [done | lia]).
  assert (Hev0 : Nat.Even (length ([] : list N))) by (by exists 0%nat).
  cbv zeta. destruct (outcomeOf g1).
  - destruct Hcases as (_ & _ & Heq). rewrite Heq in Hstep.
    injection Hstep as <- <-. cbn. rewrite <- Htl, <- Hsc, <- Hsp.
    repeat split; try lia. by exists [].
  - destruct Hcases as (_ & _ & _ & Heq). rewrite Heq in Hstep.
    destruct (getRandomCoords _ _) as [[f t]| |] eqn:Hrand; try done.
    injection Hstep as <- <-. cbn [game].
    destruct (getRandomCoords_consumes _ _ _ _ Hrand)
      as (rejected & r & k & -> & _ & Heven & _).
    unfold afterEat. cbn. rewrite <- Htl, <- Hsc, <- Hsp.
    split; [lia|]. split; [lia|].
    split; [destruct (_ =? 0); lia|]. split; [intros _; split; congruence|].
    exists (rejected ++ [r; k]). split; [by rewrite <- app_assoc|]. split.
    + rewrite length_app. cbn [length]. destruct Heven as [m ->].
      exists (S m). lia.
    + split; [done|]. intros _. by destruct rejected.
  - destruct Hcases as (_ & Heq). rewrite Heq in Hstep.
    injection Hstep as <- <-. cbn. rewrite <- Htl, <- Hsc, <- Hsp.
    repeat split; try lia. by exists [].
  - destruct Hcases as (_ & _ & _ & Heq). rewrite Heq in Hstep.
    injection Hstep as <- <-. cbn. rewrite <- Htl, <- Hsc, <- Hsp.
    repeat split; try lia. by exists [].
Qed.

Lemma invariant_score_speed g :
  invariant g ->
  0 <= score g <= 22 /\ 1 <= speed g <= 5 /\ speed g = 1 + score g / 5.
Proof.
  intros [[_ Hn] _ _ _ _ Hstat Hsp].
  assert (Hscore : 0 <= score g <= 22)
    by (unfold MAX_SNAKE_LENGTH in *; destruct (status g); lia).
  split; [done|]. split; [|done].
  rewrite Hsp. Z.to_euclidean_division_equations; lia.
Qed.

Lemma getStepLengthMs_reachable g :
  invariant g ->
  getStepLengthMs g = 1000 - 200 * (speed g - 1) /\
  getStepLengthMs g = 1000 - 200 * (score g / 5) /\
  200 <= getStepLengthMs g <= 1000.
Proof.
  intros (Hscore & Hspeed & Hsp)%invariant_score_speed.
  rewrite getStepLengthMs_spec by lia.
  split; [lia|]. split; [rewrite Hsp; lia | lia].
Qed.

(** X10. A step from a reachable ONGOING state never shrinks the snake,
    lowers the score or the speed, or lengthens the step interval; each of
    tailLength, score and speed grows by at most one.  The step draws values
    from [rand()] exactly when the score goes up, always an even number of
    them, and then the tail has grown too and the game is still ongoing. *)
Theorem X10_stepGame_only_grows (tape : list N) (w w' : World)
    (tape' : list N) :
  reachable w -> status (game w) = ONGOING ->
  stepGame tape w = Ok (w', tape') ->
  let g := game w in
  let g' := game w' in
  tailLength (snake g) <= tailLength (snake g') <= tailLength (snake g) + 1 /\
  score g <= score g' <= score g + 1 /\
  speed g <= speed g' <= speed g + 1 /\
  getStepLengthMs g' <= getStepLengthMs g /\
  (score g' = score g + 1 ->
   tailLength (snake g') = tailLength (snake g) + 1 /\ status g' = ONGOING) /\
  exists used,
    tape = used ++ tape' /\ Nat.Even (length used) /\
    (used <> [] <-> score g' = score g + 1).
Proof.
  intros Hreach Hst Hstep.
  pose proof (reachable_invariant w Hreach) as Hinv.
  pose proof (invariant_stepGame _ _ _ _ Hinv Hst Hstep) as Hinv'.
  destruct (stepGame_effect _ _ _ _ Hinv Hst Hstep)
    as (Htl & Hsc & Hsp & Heat & Hused).
  cbv zeta.
  destruct (getStepLengthMs_reachable _ Hinv) as (-> & _ & _).
  destruct (getStepLengthMs_reachable _ Hinv') as (-> & _ & _).
  repeat split; try tauto; try lia.
Qed.

(** The first step of the sweep eats: two values are drawn, score and
    tailLength go up by one. *)
Lemma X10_witness :
  let w := worldAfter sweepFood [] in
  exists w',
    stepGame [2; 4; 9]%N w = Ok (w', [9%N]) /\
    score (game w') = score (game w) + 1 /\
    tailLength (snake (game w')) = tailLength (snake (game w)) + 1 /\
    getStepLengthMs (game w') <= getStepLengthMs (game w).
Proof.
  intros w.
  assert (Hreach : reachable w)
    by (apply (run_reachable sweepFood []); reflexivity).
  eexists. split; [vm_compute; reflexivity|].
  pose proof (X10_stepGame_only_grows [2; 4; 9]%N w _ [9%N] Hreach
                eq_refl eq_refl) as (_ & _ & _ & Hms & Heat & _).
  split; [reflexivity|]. split; [exact (proj1 (Heat eq_refl)) | exact Hms].
Defined.

(** ** Runs *)

Lemma play_invariant inputs w w' :
  invariant (game w) -> play inputs w = Ok w' -> invariant (game w').
Proof.
  revert w. induction inputs as [|[t tape] rest IH]; intros w Hinv;
    cbn [play].
  - by intros [= <-].
  - destruct (status (game w)) eqn:Hst; try by intros [= <-].
    destruct (stepGame tape (press t w)) as [[w1 t1]| |] eqn:Hstep; try done.
    cbn [rbind]. apply IH.
    eapply invariant_stepGame; [| |exact Hstep].
    + by destruct t.
    + by rewrite press_status.
Qed.

(** X11. Over any number of rounds of the game loop from a reachable state,
    tailLength, score and speed never go down and the step interval never
    goes up; the score rises by at most one per round played, and tailLength
    by as much as the score, or by one more when the run ends in a win. *)
Theorem X11_play_only_grows (inputs : list (Turn * list N)) (w w' : World) :
  reachable w -> play inputs w = Ok w' ->
  let g := game w in
  let g' := game w' in
  reachable w' /\
  score g <= score g' <= score g + Z.of_nat (length inputs) /\
  speed g <= speed g' /\
  getStepLengthMs g' <= getStepLengthMs g /\
  tailLength (snake g') - tailLength (snake g)
  = score g' - score g
    + (if bool_decide (status g' = WON /\ status g = ONGOING) then 1 else 0).
Proof.
  cbv zeta. intros Hreach Hplay.
  split; [by eapply play_reachable|].
  pose proof (reachable_invariant w Hreach) as Hinv. clear Hreach.
  revert w Hinv Hplay.
  induction inputs as [|[t tape] rest IH]; intros w Hinv; cbn [play].
  - intros [= <-]. cbn [length].
    rewrite bool_decide_eq_false_2 by (intros [? ?]; congruence). lia.
  - destruct (status (game w)) eqn:Hst.
    2,3: intros [= <-]; cbn [length];
      rewrite bool_decide_eq_false_2 by (intros [? ?]; congruence); lia.
    destruct (stepGame tape (press t w)) as [[w1 t1]| |] eqn:Hstep; try done.
    cbn [rbind]. intros Hplay.
    assert (Hinvp : invariant (game (press t w))) by by destruct t.
    assert (Hstp : status (game (press t w)) = ONGOING)
      by by rewrite press_status.
    pose proof (invariant_stepGame _ _ _ _ Hinvp Hstp Hstep) as Hinv1.
    destruct (stepGame_effect _ _ _ _ Hinvp Hstp Hstep)
      as (Htl & Hsc & Hsp & Heat & _).
    replace (game (press t w)) with (game w) in * by by destruct t.
    destruct (IH w1 Hinv1 Hplay) as (Hsc' & Hsp' & Hms' & Htl').
    pose proof (play_invariant _ _ _ Hinv1 Hplay) as Hinv'.
    destruct (getStepLengthMs_reachable _ Hinv) as (Hw & _ & _).
    destruct (getStepLengthMs_reachable _ Hinv1) as (Hw1 & _ & _).
    destruct (getStepLengthMs_reachable _ Hinv') as (Hw' & _ & _).
    cbn [length]. split; [lia|]. split; [lia|]. split; [lia|].
    (* the tail and the score across the first step *)
    assert (Hfirst : tailLength (snake (game w1)) - tailLength (snake (game w))
                     = score (game w1) - score (game w)
                       + (if bool_decide (status (game w1) = WON) then 1 else 0)).
    { destruct Hinv as [_ _ _ _ _ Hs _]. rewrite Hst in Hs.
      destruct Hinv1 as [_ _ _ _ _ Hs1 _].
      unfold MAX_SNAKE_LENGTH in *.
      destruct (status (game w1)) eqn:Hst1.
      - rewrite bool_decide_eq_false_2 by done. lia.
      - rewrite bool_decide_eq_true_2 by done.
        assert (score (game w1) <> score (game w) + 1)
          by (intros [_ ?]%Heat; congruence).
        lia.
      - rewrite bool_decide_eq_false_2 by done. lia. }
    (* a run from a finished game does not move *)
    destruct (status (game w1)) eqn:Hst1.
    + rewrite bool_decide_eq_false_2 in Hfirst by done.
      destruct (bool_decide _); lia.
    + assert (w' = w1) as ->.
      { destruct rest as [|[t2 tape2] rest2]; cbn [play] in Hplay.
        - by injection Hplay.
        - rewrite Hst1 in Hplay. by injection Hplay. }
      rewrite bool_decide_eq_true_2 by done.
      rewrite bool_decide_eq_true_2 in Hfirst by done. lia.
    + assert (w' = w1) as ->.
      { destruct rest as [|[t2 tape2] rest2]; cbn [play] in Hplay.
        - by injection Hplay.
        - rewrite Hst1 in Hplay. by injection Hplay. }
      rewrite bool_decide_eq_false_2 by (intros [? ?]; congruence).
      rewrite bool_decide_eq_false_2 in Hfirst by done. lia.
Qed.

(** The whole sweep: 23 rounds, 22 foods eaten, and the winning step adds
    the 24th segment. *)
Lemma X11_witness :
  let w := worldAfter sweepFood [] in
  let w' := sweepWorld23 in
  play sweep w = Ok w' /\
  score (game w') = 22 /\ tailLength (snake (game w')) = 24 /\
  getStepLengthMs (game w') <= getStepLengthMs (game w) /\
  tailLength (snake (game w')) - tailLength (snake (game w))
  = score (game w') - score (game w) + 1.
Proof.
  intros w w'.
  assert (Hreach : reachable w)
    by (apply (run_reachable sweepFood []); reflexivity).
  assert (Hplay : play sweep w = Ok w') by reflexivity.
  pose proof (X11_play_only_grows sweep w w' Hreach Hplay)
    as (_ & _ & _ & Hms & Htl).
  split; [exact Hplay|]. split; [reflexivity|]. split; [reflexivity|].
  split; [exact Hms | exact Htl].
Defined.

(** ** The snake on the grid *)

Lemma occupied_length g :
  wellFormed g -> Z.of_nat (length (occupied g)) = tailLength (snake g) + 1.
Proof.
  intros [Hlen Hn]. unfold occupied, tailCells, MAX_SNAKE_LENGTH in *.
  cbn [length]. rewrite length_take. lia.
Qed.

Lemma occupied_inGrid g : invariant g -> Forall inGrid (occupied g).
Proof.
  intros [_ Hhd _ Htl _ _ _]. apply Forall_cons. split; [done|].
  by apply Forall_take.
Qed.

(** X12. In every reachable state the snake lies inside the grid, no two of
    its parts share a cell, and it covers tailLength + 1 cells.  While the
    game is ongoing or lost that is score + 2 cells and at most 24 of the
    25; while it is ongoing the food lies on a cell of the grid that the
    snake does not cover. *)
Theorem X12_snake_never_overlaps (w : World) :
  reachable w ->
  let g := game w in
  Forall inGrid (occupied g) /\
  NoDup (occupied g) /\
  Z.of_nat (length (occupied g)) = tailLength (snake g) + 1 /\
  (status g <> WON ->
   Z.of_nat (length (occupied g)) = score g + 2 /\
   (length (occupied g) < length gridCells)%nat) /\
  (status g = ONGOING -> inGrid (foodCoords g) /\ foodCoords g ∉ occupied g).
Proof.
  intros Hreach. cbv zeta.
  pose proof (reachable_invariant w Hreach) as Hinv.
  pose proof (occupied_inGrid _ Hinv) as Hgrid.
  pose proof Hinv as [Hwf _ Hfd _ Hnd Hstat _].
  pose proof (occupied_length _ Hwf) as Hlen.
  split; [done|]. split; [done|]. split; [done|].
  change (length gridCells) with 25%nat. unfold MAX_SNAKE_LENGTH in *.
  split.
  - intros Hst. destruct (status (game w)); [lia|done|lia].
  - intros Hst. rewrite Hst in Hstat. tauto.
Qed.

(** The snake that chases its tail around a square: four cells, score 2. *)
Lemma X12_witness :
  let g := game chaseWorld in
  NoDup (occupied g) /\ length (occupied g) = 4%nat /\ score g = 2 /\
  foodCoords g ∉ occupied g.
Proof.
  intros g.
  assert (Hreach : reachable chaseWorld).
  { refine (reach_buttonB (worldAfter sweepFood chase) _).
    apply (run_reachable sweepFood chase). reflexivity. }
  pose proof (X12_snake_never_overlaps chaseWorld Hreach)
    as (_ & Hnd & _ & _ & Hfood).
  split; [exact Hnd|]. split; [reflexivity|]. split; [reflexivity|].
  exact (proj2 (Hfood eq_refl)).
Defined.

(** X13. In every reachable state the speed is 1 + score / 5, between 1 and
    5, and the step interval is 1000 - 200 * (score / 5) milliseconds: one
    of 1000, 800, 600, 400 and 200.  The floor of 200 in [getStepLengthMs]
    is reached at score 20 and never has to cut a smaller value off. *)
Theorem X13_speed_and_interval_from_score (w : World) :
  reachable w ->
  let g := game w in
  speed g = 1 + score g / 5 /\
  1 <= speed g <= 5 /\
  getStepLengthMs g = 1000 - 200 * (score g / 5) /\
  200 <= 1000 - 200 * (speed g - 1) /\
  (getStepLengthMs g = 200 <-> 20 <= score g).
Proof.
  intros Hreach. cbv zeta.
  pose proof (reachable_invariant w Hreach) as Hinv.
  destruct (invariant_score_speed _ Hinv) as (Hscore & Hspeed & Hsp).
  destruct (getStepLengthMs_reachable _ Hinv) as (_ & Hms & _).
  split; [done|]. split; [done|]. split; [done|]. split; [lia|].
  rewrite Hms. Z.to_euclidean_division_equations; lia.
Qed.

(** At the end of the sweep the score is 22, the speed 5 and the interval
    200 ms. *)
Lemma X13_witness :
  let g := game sweepWorld23 in
  score g = 22 /\ speed g = 1 + score g / 5 /\ getStepLengthMs g = 200.
Proof.
  intros g.
  assert (Hreach : reachable sweepWorld23)
    by (apply (run_reachable sweepFood sweep); reflexivity).
  pose proof (X13_speed_and_interval_from_score sweepWorld23 Hreach)
    as (Hsp & _ & _ & _ & Hfloor).
  split; [reflexivity|]. split; [exact Hsp|].
  apply Hfloor. by vm_compute.
Defined.

(** ** Winning *)

Lemma reachable_won_head_on_food w :
  reachable w -> status (game w) = WON ->
  head (snake (game w)) = foodCoords (game w).
Proof.
  induction 1 as [tape g tape' Hinit | w _ IH | w _ IH
                 | w tape w' tape' Hreach _ Hst Hstep
                 | w tape w' tape' Hreach _ Hreset]; try done.
  - apply (invariant_initGame tape (game boot) g tape') in Hinit
      as (_ & Hst & _); [cbn; congruence | done | compute_done].
  - pose proof (reachable_invariant w Hreach) as Hinv.
    pose proof (stepGame_cases tape w Hinv Hst) as Hcases.
    cbv zeta in Hcases.
    destruct (outcomeOf _).
    + destruct Hcases as (_ & _ & Heq). rewrite Heq in Hstep.
      injection Hstep as <- <-. cbn. rewrite turnSnake_spec. cbn. congruence.
    + destruct Hcases as (_ & _ & _ & Heq). rewrite Heq in Hstep.
      destruct (getRandomCoords _ _) as [[f t]| |]; try done.
      injection Hstep as <- <-. cbn. rewrite turnSnake_spec. cbn. congruence.
    + destruct Hcases as (_ & Heq). rewrite Heq in Hstep.
      injection Hstep as <- <-. done.
    + destruct Hcases as (_ & Hc & _ & Heq). rewrite Heq in Hstep.
      injection Hstep as <- <-. intros _. exact Hc.
  - unfold resetGame in Hreset.
    destruct (initGame tape (game w)) as [[g t]| |] eqn:Hinit; try done.
    injection Hreset as <- <-.
    pose proof (reachable_invariant w Hreach) as [[Hlen _] _ _ Htl _ _ _].
    apply invariant_initGame in Hinit as (_ & Hst & _); [|done..].
    cbn. congruence.
Qed.

Lemma gridFull_length g :
  gridFull g -> (length gridCells <= length (occupied g))%nat.
Proof.
  intros Hfull. apply submseteq_length, NoDup_submseteq; [compute_done|].
  intros c Hc. apply Hfull.
  unfold gridCells in Hc.
  apply list_elem_of_bind in Hc as (r & Hc & Hr%elem_of_seq).
  apply list_elem_of_bind in Hc as (k & Hc & Hk%elem_of_seq).
  apply list_elem_of_singleton in Hc as ->.
  split; cbn; unfold GRID_SIZE; lia.
Qed.

(** X14. A reachable state has status WON exactly when the snake covers
    every cell of the grid.  In a won state the tail uses all
    MAX_SNAKE_LENGTH slots, the head lies on the food cell it has just
    eaten, the score is MAX_SNAKE_LENGTH - 2 and the speed 5. *)
Theorem X14_won_iff_grid_full (w : World) :
  reachable w ->
  let g := game w in
  (status g = WON <-> gridFull g) /\
  (status g = WON ->
   tailLength (snake g) = MAX_SNAKE_LENGTH /\
   head (snake g) = foodCoords g /\
   score g = MAX_SNAKE_LENGTH - 2 /\ speed g = 5).
Proof.
  intros Hreach. cbv zeta.
  pose proof (reachable_invariant w Hreach) as Hinv.
  pose proof (occupied_inGrid _ Hinv) as Hgrid.
  pose proof Hinv as [Hwf _ _ _ Hnd Hstat Hsp].
  pose proof (occupied_length _ Hwf) as Hlen.
  split; [split|].
  - intros Hst. rewrite Hst in Hstat. destruct Hstat as [Hn _].
    assert (Hperm : occupied (game w) ≡ₚ gridCells).
    { apply submseteq_length_Permutation.
      - apply NoDup_submseteq; [done|].
        intros c Hc. apply gridCells_complete.
        rewrite Forall_forall in Hgrid. by apply Hgrid.
      - change (length gridCells) with 25%nat.
        unfold MAX_SNAKE_LENGTH in *. lia. }
    intros c Hc. rewrite Hperm. by apply gridCells_complete.
  - intros Hfull%gridFull_length.
    change (length gridCells) with 25%nat in Hfull.
    unfold MAX_SNAKE_LENGTH in *.
    destruct (status (game w)); [lia|done|lia].
  - intros Hst. rewrite Hst in Hstat. destruct Hstat as [Hn Hsc].
    split; [done|]. split; [by apply reachable_won_head_on_food|].
    split; [done|]. rewrite Hsp, Hsc. reflexivity.
Qed.

(** The end of the sweep. *)
Lemma X14_witness :
  let g := game sweepWorld23 in
  status g = WON /\ gridFull g /\ head (snake g) = foodCoords g.
Proof.
  intros g.
  assert (Hreach : reachable sweepWorld23)
    by (apply (run_reachable sweepFood sweep); reflexivity).
  pose proof (X14_won_iff_grid_full sweepWorld23 Hreach) as [Hiff Hwon].
  split; [reflexivity|].
  split; [exact (proj1 Hiff eq_refl) | exact (proj1 (proj2 (Hwon eq_refl)))].
Defined.

(** ** Rendering the game *)

Lemma displayGameState_frame g :
  wellFormed g -> displayGameState g = Ok (frameOf g).
Proof.
  intros [Hlen Hn]. unfold displayGameState, frameOf, tailCells.
  unfold MAX_SNAKE_LENGTH in *.
  rewrite (displayTail_loop_spec _ 0) by (cbn; lia). cbn [rbind].
  by rewrite drop_0.
Qed.

Lemma pixelCells_cons c v ops :
  pixelCells (SetPixelValue (col c) (row c) v :: ops) = c :: pixelCells ops.
Proof. by destruct c. Qed.

Lemma pixelCells_app ops1 ops2 :
  pixelCells (ops1 ++ ops2) = pixelCells ops1 ++ pixelCells ops2.
Proof. apply omap_app. Qed.

Lemma pixelCells_fmap v (l : list Coords) :
  pixelCells ((fun c => SetPixelValue (col c) (row c) v) <$> l) = l.
Proof.
  induction l as [|c l IH]; [done|].
  rewrite fmap_cons, pixelCells_cons. by rewrite IH.
Qed.

Lemma pixelCells_frameOf g :
  pixelCells (frameOf g) = occupied g ++ [foodCoords g].
Proof.
  unfold frameOf, occupied.
  change (pixelCells (Clear :: ?l)) with (pixelCells l).
  rewrite pixelCells_cons, pixelCells_app, pixelCells_fmap, pixelCells_cons.
  done.
Qed.

(** X15. In every reachable state [displayGameState] stays inside the array
    and makes tailLength + 3 calls on the display: one clear, then the head
    at brightness 255, the used tail slots in array order at 128, and the
    food at 255.  While the game is ongoing no cell is written twice, so
    the picture shows head, tail and food as drawn.  In a won game the last
    call, for the food, writes the head's cell again. *)
Theorem X15_displayGameState_frame (w : World) :
  reachable w ->
  let g := game w in
  displayGameState g = Ok (frameOf g) /\
  Z.of_nat (length (frameOf g)) = tailLength (snake g) + 3 /\
  pixelCells (frameOf g) = occupied g ++ [foodCoords g] /\
  Forall pixelInGrid (frameOf g) /\
  (status g = ONGOING -> NoDup (pixelCells (frameOf g))) /\
  (status g = WON ->
   last (pixelCells (frameOf g)) = Some (head (snake g))).
Proof.
  intros Hreach. cbv zeta.
  pose proof (reachable_invariant w Hreach) as Hinv.
  pose proof Hinv as [Hwf _ _ _ Hnd Hstat _].
  pose proof (displayGameState_frame _ Hwf) as Hframe.
  split; [done|]. split; [|split; [apply pixelCells_frameOf|split; [|split]]].
  - pose proof (occupied_length _ Hwf) as Hlen.
    unfold frameOf, occupied in *. cbn [length] in *.
    rewrite length_app, length_fmap. cbn [length]. lia.
  - destruct (displayGameState_inGrid _ Hinv) as (ops & Hops & Hgrid).
    congruence.
  - intros Hst. rewrite Hst in Hstat. destruct Hstat as (_ & _ & Hfood).
    rewrite pixelCells_frameOf. apply NoDup_app. split; [done|].
    split; [|apply NoDup_singleton].
    intros c Hc ->%list_elem_of_singleton. done.
  - intros Hst. rewrite pixelCells_frameOf, last_snoc.
    by rewrite (reachable_won_head_on_food w).
Qed.

(** The snake around the square: six calls, no cell written twice. *)
Lemma X15_witness :
  let g := game chaseWorld in
  displayGameState g = Ok (frameOf g) /\
  length (frameOf g) = 6%nat /\ NoDup (pixelCells (frameOf g)).
Proof.
  intros g.
  assert (Hreach : reachable chaseWorld).
  { refine (reach_buttonB (worldAfter sweepFood chase) _).
    apply (run_reachable sweepFood chase). reflexivity. }
  pose proof (X15_displayGameState_frame chaseWorld Hreach)
    as (Hframe & _ & _ & _ & Hnd & _).
  split; [exact Hframe|]. split; [reflexivity | exact (Hnd eq_refl)].
Defined.

(** ** Rendering the score *)

Lemma for_up_single (n : nat) (from : Z) (f : Z -> DisplayOp) :
  for_up n from (fun v => [f v])
  = (fun i : nat => f (from + Z.of_nat i)) <$> seq 0 n.
Proof.
  revert from. induction n as [|n IH]; intros from; [done|].
  cbn [for_up seq]. rewrite fmap_cons, IH. cbn [app].
  f_equal; [f_equal; lia|].
  rewrite <- fmap_S_seq, <- list_fmap_compose.
  apply list_fmap_ext. intros _ i _. cbn. f_equal. lia.
Qed.

Lemma scorePixel_at (k i : nat) :
  (i < 5)%nat ->
  scorePixel (5 * k + i) = SetPixelValue (Z.of_nat i) (Z.of_nat k) 255.
Proof.
  intros Hi. unfold scorePixel.
  f_equal; Z.to_euclidean_division_equations; lia.
Qed.

Lemma score_rows (q k : nat) :
  for_up q (Z.of_nat k)
    (fun row => for_up 5 0 (fun col => [SetPixelValue col row 255]))
  = scorePixel <$> seq (5 * k) (5 * q).
Proof.
  revert k. induction q as [|q IH]; intros k.
  - by rewrite Nat.mul_0_r.
  - cbn [for_up].
    replace (Z.of_nat k + 1) with (Z.of_nat (S k)) by lia.
    rewrite IH. replace (5 * S q)%nat with (5 + 5 * q)%nat by lia.
    rewrite seq_app, fmap_app.
    replace (5 * k + 5)%nat with (5 * S k)%nat by lia. f_equal.
    cbn [seq]. rewrite !fmap_cons. cbn [app]. unfold scorePixel.
    repeat f_equal; Z.to_euclidean_division_equations; lia.
Qed.

Lemma displayScore_pixels g :
  0 <= score g ->
  displayScore g = scorePixel <$> seq 0 (Z.to_nat (score g)).
Proof.
  intros Hs. unfold displayScore. cbv zeta.
  set (s := score g) in *.
  pose proof (Z.quot_rem' s 5) as Hqr.
  pose proof (Z.rem_bound_pos s 5 ltac:(lia) ltac:(lia)) as Hr.
  assert (Hq : 0 <= Z.quot s 5) by (apply Z.quot_pos; lia).
  change 0 with (Z.of_nat 0) at 1. rewrite score_rows.
  rewrite for_up_single.
  replace (Z.to_nat s)
    with (5 * Z.to_nat (Z.quot s 5) + Z.to_nat (Z.rem s 5))%nat by lia.
  rewrite seq_app, fmap_app, Nat.add_0_l.
  rewrite (Nat.mul_0_r 5) at 1. f_equal.
  replace (seq (5 * Z.to_nat (Z.quot s 5)) (Z.to_nat (Z.rem s 5)))
    with (Nat.add (5 * Z.to_nat (Z.quot s 5)) <$> seq 0 (Z.to_nat (Z.rem s 5)))
    by (rewrite fmap_add_seq; f_equal; lia).
  rewrite <- list_fmap_compose.
  apply list_fmap_ext. intros _ i Hi%list_elem_of_lookup_2%elem_of_seq.
  unfold compose. rewrite scorePixel_at by lia. f_equal; lia.
Qed.

Lemma scorePixel_cells (n : nat) :
  pixelCells (scorePixel <$> seq 0 n)
  = (fun i : nat => mkCoords (Z.of_nat i / 5) (Z.of_nat i mod 5)) <$> seq 0 n.
Proof.
  generalize 0%nat. induction n as [|n IH]; intros j; [done|].
  cbn [seq]. rewrite !fmap_cons. unfold pixelCells in *.
  cbn [omap list_omap pixelCell scorePixel]. f_equal. apply IH.
Qed.

Lemma displayScore_counts (g : Game) :
  0 <= score g ->
  Z.of_nat (length (displayScore g)) = score g /\
  NoDup (pixelCells (displayScore g)) /\
  length (pixelCells (displayScore g)) = length (displayScore g) /\
  (Forall pixelInGrid (displayScore g) <-> score g <= 25).
Proof.
  intros Hs. rewrite displayScore_pixels by done.
  rewrite scorePixel_cells, !length_fmap, length_seq.
  split; [lia|]. split; [|split; [done|]].
  - apply NoDup_fmap_2_strong; [|apply NoDup_seq].
    intros i j _ _ [= Hq Hr]. Z.to_euclidean_division_equations; lia.
  - rewrite Forall_fmap, Forall_seq. unfold pixelInGrid, scorePixel, GRID_SIZE.
    cbn. split.
    + intros Hall. destruct (decide (score g <= 25)) as [|Hgt]; [done|].
      destruct (Hall 25%nat ltac:(lia)) as [_ [_ Hrow]].
      change (Z.of_nat 25 `div` 5) with 5 in Hrow. lia.
    + intros Hle i Hi. Z.to_euclidean_division_equations; lia.
Qed.

(** X16. For every score from 0 up, [displayScore] lights exactly score
    pixels, five to a row from the top row down, no cell twice, and never
    clears the display itself.  All of them lie on the 5x5 grid exactly
    when the score is at most 25; from 26 on the partial row is row 5 or
    lower. *)
Theorem X16_displayScore_counts_the_score (g : Game) :
  0 <= score g ->
  displayScore g = scorePixel <$> seq 0 (Z.to_nat (score g)) /\
  Z.of_nat (length (displayScore g)) = score g /\
  NoDup (pixelCells (displayScore g)) /\
  length (pixelCells (displayScore g)) = length (displayScore g) /\
  (Forall pixelInGrid (displayScore g) <-> score g <= 25).
Proof.
  intros Hs. split; [by apply displayScore_pixels|].
  by apply displayScore_counts.
Qed.

(** Score 7 is one full row and two pixels; score 26 leaves the grid. *)
Lemma X16_witness :
  let g := set_score 7 (game initialWorld) in
  let g' := set_score 26 (game initialWorld) in
  length (displayScore g) = 7%nat /\
  Forall pixelInGrid (displayScore g) /\
  ~ Forall pixelInGrid (displayScore g').
Proof.
  intros g g'.
  assert (Hs : 0 <= score g) by (cbn; lia).
  assert (Hs' : 0 <= score g') by (cbn; lia).
  pose proof (X16_displayScore_counts_the_score g Hs)
    as (_ & _ & _ & _ & Hgrid).
  pose proof (X16_displayScore_counts_the_score g' Hs')
    as (_ & _ & _ & _ & Hgrid').
  split; [reflexivity|]. split; [apply Hgrid; cbn; lia|].
  intros Hin%Hgrid'. cbn in Hin. lia.
Defined.

(** ** Resetting *)

Lemma resetGame_fresh (tape : list N) (w w' : World)
    (tape' : list N) :
  length (tail (snake (game w))) = Z.to_nat MAX_SNAKE_LENGTH ->
  resetGame tape w = Ok (w', tape') ->
  let g' := game w' in
  occupied g' = [mkCoords 2 2; mkCoords 2 1] /\
  tailLength (snake g') = 1 /\ direction (snake g') = RIGHT /\
  speed g' = 1 /\ score g' = 0 /\ status g' = ONGOING /\
  getStepLengthMs g' = 1000 /\
  currentTurn w' = TURN_NONE /\
  inGrid (foodCoords g') /\ foodCoords g' ∉ occupied g' /\
  drop 1 (tail (snake g')) = drop 1 (tail (snake (game w))) /\
  (Forall inGrid (tail (snake (game w))) -> invariant g') /\
  (forall r k, (r < 5)%nat -> (k < 5)%nat ->
     mkCoords (Z.of_nat r) (Z.of_nat k) ∉ occupied g' ->
     exists w2, resetGame [N.of_nat r; N.of_nat k] w = Ok (w2, []) /\
       foodCoords (game w2) = mkCoords (Z.of_nat r) (Z.of_nat k)).
Proof.
  intros Hlen Hreset. cbv zeta.
  unfold resetGame in *.
  destruct (initGame tape (game w)) as [[g t]| |] eqn:Hinit; try done.
  injection Hreset as <- <-. cbn [game currentTurn].
  assert (Hinv : Forall inGrid (tail (snake (game w))) -> invariant g).
  { intros Hgrid. by apply (invariant_initGame _ _ _ _ Hlen Hgrid Hinit). }
  unfold initGame, placeFood, MAX_SNAKE_LENGTH in Hinit, Hlen.
  cbn in Hinit. rewrite (arr_set_insert _ 0%nat) in Hinit by lia.
  cbn [rbind] in Hinit.
  destruct (tail (snake (game w))) as [|t0 rest] eqn:Htail;
    [cbn in Hlen; lia|].
  destruct (getRandomCoords _ _) as [[f t1]| |] eqn:Hrand; try done.
  cbn [rbind] in Hinit. injection Hinit as <- <-.
  apply getRandomCoords_spec in Hrand as [Hf Hfree];
    [|split; cbn; [exact Hlen | unfold MAX_SNAKE_LENGTH; lia]].
  do 8 (split; [reflexivity|]).
  split; [exact Hf|]. split; [exact Hfree|]. split; [reflexivity|].
  split; [exact Hinv|].
  intros r k Hr Hk Hcell. unfold initGame, placeFood.
  cbn -[getRandomCoords].
  rewrite Htail, (arr_set_insert _ 0%nat) by (cbn in *; lia).
  cbn [rbind].
  rewrite getRandomCoords_free; [by eexists | | done | done | exact Hcell].
  split; cbn; [exact Hlen | unfold MAX_SNAKE_LENGTH; lia].
Qed.



(** ** The host loop *)

Lemma sleepsOf_app e1 e2 : sleepsOf (e1 ++ e2) = sleepsOf e1 ++ sleepsOf e2.
Proof. apply omap_app. Qed.

Lemma drawsOf_app e1 e2 : drawsOf (e1 ++ e2) = drawsOf e1 ++ drawsOf e2.
Proof. apply omap_app. Qed.

Lemma sleepsOf_display ops : sleepsOf (OnDisplay <$> ops) = [].
Proof. induction ops as [|op ops IH]; [done|]. exact IH. Qed.

Lemma drawsOf_display ops : drawsOf (OnDisplay <$> ops) = ops.
Proof.
  induction ops as [|op ops IH]; [done|].
  rewrite fmap_cons. cbn. f_equal. exact IH.
Qed.

Lemma frameOf_inGrid g : invariant g -> Forall pixelInGrid (frameOf g).
Proof.
  intros Hinv. destruct (displayGameState_inGrid _ Hinv) as (ops & Hops & Hgrid).
  rewrite displayGameState_frame in Hops by (by destruct Hinv).
  congruence.
Qed.

Lemma gameLoop_trace inputs w events w' :
  invariant (game w) ->
  gameLoop inputs w = Ok (events, w') ->
  play inputs w = Ok w' /\
  Forall (fun ms => 200 <= ms <= getStepLengthMs (game w)) (sleepsOf events) /\
  StronglySorted (fun a b => b <= a) (sleepsOf events) /\
  Forall pixelInGrid (drawsOf events) /\
  (length (sleepsOf events) <= length inputs)%nat /\
  (length (sleepsOf events) < length inputs -> status (game w') <> ONGOING)%nat.
Proof.
  revert w events. induction inputs as [|[t tape] rest IH];
    intros w events Hinv; cbn [gameLoop play].
  - intros [= <- <-]. repeat split; try constructor. cbn. lia.
  - destruct (status (game w)) eqn:Hst.
    2,3: intros [= <- <-]; repeat split; try constructor;
      cbn; try lia; congruence.
    rewrite displayGameState_frame by (by destruct Hinv).
    pose proof (frameOf_inGrid _ Hinv) as Hframe.
    revert Hframe. generalize (frameOf (game w)). intros fr Hframe.
    cbn [rbind].
    destruct (stepGame tape (press t w)) as [[w1 t1]| |] eqn:Hstep; try done.
    cbn [rbind].
    destruct (gameLoop rest w1) as [[ev1 w2]| |] eqn:Hloop; try done.
    cbn [rbind]. intros [= <- <-].
    assert (Hinvp : invariant (game (press t w))) by by destruct t.
    assert (Hstp : status (game (press t w)) = ONGOING)
      by by rewrite press_status.
    pose proof (invariant_stepGame _ _ _ _ Hinvp Hstp Hstep) as Hinv1.
    destruct (stepGame_effect _ _ _ _ Hinvp Hstp Hstep)
      as (_ & _ & Hsp & _).
    replace (game (press t w)) with (game w) in * by by destruct t.
    destruct (IH w1 ev1 Hinv1 Hloop) as (Hplay & Hms & Hsorted & Hpix & Hlen & Hend).
    destruct (getStepLengthMs_reachable _ Hinv) as (Hw & _ & Hrange).
    destruct (getStepLengthMs_reachable _ Hinv1) as (Hw1 & _ & _).
    rewrite sleepsOf_app, sleepsOf_display, drawsOf_app, drawsOf_display.
    cbn [app sleepsOf drawsOf omap list_omap]. fold (sleepsOf ev1).
    fold (drawsOf ev1).
    assert (Hle : Forall (fun ms => ms <= getStepLengthMs (game w))
                    (sleepsOf ev1)).
    { eapply Forall_impl; [exact Hms|]. cbn. intros ms ?. lia. }
    split; [done|]. split.
    { apply Forall_cons. split; [lia|].
      eapply Forall_impl; [exact Hms|]. cbn. intros ms ?. lia. }
    split; [by apply StronglySorted_cons|].
    split; [apply Forall_app; split; done|].
    cbn [length]. split; [lia|]. intros Hlt. apply Hend. lia.
Qed.

(** X18. The game loop of [main], run from a reachable state for as many
    rounds as there are inputs, ends in the state [play] computes.  Every
    sleep it asks for is between 200 and 1000 ms and no sleep is longer
    than an earlier one of the same round of play; every pixel it draws is
    on the grid; and it sleeps once per step taken, stopping early only when
    the game is over. *)
Theorem X18_gameLoop_trace (inputs : list (Turn * list N)) (w : World)
    (events : list HostEvent) (w' : World) :
  reachable w ->
  gameLoop inputs w = Ok (events, w') ->
  play inputs w = Ok w' /\ reachable w' /\
  Forall (fun ms => 200 <= ms <= 1000) (sleepsOf events) /\
  StronglySorted (fun a b => b <= a) (sleepsOf events) /\
  Forall pixelInGrid (drawsOf events) /\
  (length (sleepsOf events) <= length inputs)%nat /\
  ((length (sleepsOf events) < length inputs)%nat ->
   status (game w') <> ONGOING).
Proof.
  intros Hreach Hloop.
  pose proof (reachable_invariant w Hreach) as Hinv.
  destruct (gameLoop_trace _ _ _ _ Hinv Hloop)
    as (Hplay & Hms & Hsorted & Hpix & Hlen & Hend).
  destruct (getStepLengthMs_reachable _ Hinv) as (_ & _ & Hrange).
  split; [done|]. split; [by eapply play_reachable|].
  split; [|done].
  eapply Forall_impl; [exact Hms|]. cbn. intros ms ?. lia.
Qed.

(** The first six rounds of the sweep as the host runs them: five sleeps of
    1000 ms and, once the score is 5, one of 800 ms. *)
Lemma X18_witness :
  let w := worldAfter sweepFood [] in
  exists events w',
    gameLoop (take 6 sweep) w = Ok (events, w') /\
    sleepsOf events = [1000; 1000; 1000; 1000; 1000; 800] /\
    play (take 6 sweep) w = Ok w' /\
    Forall pixelInGrid (drawsOf events).
Proof.
  intros w.
  assert (Hreach : reachable w)
    by (apply (run_reachable sweepFood []); reflexivity).
  destruct (gameLoop (take 6 sweep) w) as [[events w']| |] eqn:Hloop;
    [|exfalso; revert Hloop; vm_compute; discriminate..].
  exists events, w'. split; [reflexivity|].
  pose proof (X18_gameLoop_trace (take 6 sweep) w events w' Hreach Hloop)
    as (Hplay & _ & _ & _ & Hpix & _).
  split; [|split; [exact Hplay | exact Hpix]].
  revert Hloop. vm_compute. intros [= <- _]. reflexivity.
Defined.

Lemma flashes_trace n w :
  invariant (game w) ->
  exists events, flashes n w = Ok events /\
    sleepsOf events = replicate (2 * n) 200 /\
    drawsOf events = mjoin (replicate n (Clear :: frameOf (game w))).
Proof.
  intros Hinv. induction n as [|n (events & Hev & Hsl & Hdr)];
    cbn [flashes].
  - by exists [].
  - unfold flash. rewrite displayGameState_frame by (by destruct Hinv).
    cbn [rbind]. rewrite Hev. cbn [rbind]. eexists. split; [done|].
    rewrite !sleepsOf_app, !drawsOf_app, sleepsOf_display, drawsOf_display.
    rewrite Hsl, Hdr. split.
    + replace (2 * S n)%nat with (S (S (2 * n))) by lia. done.
    + cbn. by rewrite <- app_assoc.
Qed.

(** X19. After a round, from a reachable state, [main] flashes the final
    picture three times with sleeps of 200 ms between clear and redraw,
    clears, shows the score with as many pixels as the score counts, sleeps
    2000 ms and resets.  It returns exactly when the reset does, and then
    every pixel drawn was on the grid and the next round starts from the
    initial position.  A button pressed while all this runs changes
    nothing. *)
Theorem X19_gameOver_trace (tape : list N) (w : World) :
  reachable w ->
  let g := game w in
  (forall t, gameOver tape (press t w) = gameOver tape w) /\
  ((exists events w' tape', gameOver tape w = Ok (events, w', tape')) <->
   (exists w' tape', resetGame tape w = Ok (w', tape'))) /\
  (forall events w' tape',
     gameOver tape w = Ok (events, w', tape') ->
     resetGame tape w = Ok (w', tape') /\
     reachable w' /\
     sleepsOf events = [200; 200; 200; 200; 200; 200; 2000] /\
     drawsOf events
     = mjoin (replicate 3 (Clear :: frameOf g)) ++ Clear :: displayScore g /\
     Z.of_nat (length (displayScore g)) = score g /\
     Forall pixelInGrid (drawsOf events) /\
     occupied (game w') = [mkCoords 2 2; mkCoords 2 1] /\
     score (game w') = 0 /\ status (game w') = ONGOING /\
     currentTurn w' = TURN_NONE).
Proof.
  intros Hreach. cbv zeta.
  pose proof (reachable_invariant w Hreach) as Hinv.
  destruct (flashes_trace 3 w Hinv) as (fl & Hfl & Hsl & Hdr).
  destruct (invariant_score_speed _ Hinv) as (Hscore & _ & _).
  split; [intros t; by destruct t|]. split.
  - unfold gameOver. rewrite Hfl. cbn [rbind]. split.
    + intros (events & w' & tape' & Hover).
      destruct (resetGame tape w) as [[w1 t1]| |]; try done. by eexists _, _.
    + intros (w' & tape' & ->). cbn [rbind]. by eexists _, _, _.
  - intros events w' tape'. unfold gameOver. rewrite Hfl. cbn [rbind].
    destruct (resetGame tape w) as [[w1 t1]| |] eqn:Hreset; try done.
    cbn [rbind]. intros [= <- <- <-].
    split; [done|]. split; [by eapply reach_reset|].
    assert (Hdraws : drawsOf
              (fl ++ OnDisplay Clear
                  :: (OnDisplay <$> displayScore (game w)) ++ [Sleep 2000])
            = mjoin (replicate 3 (Clear :: frameOf (game w)))
              ++ Clear :: displayScore (game w)).
    { rewrite drawsOf_app, Hdr. f_equal.
      change (drawsOf (OnDisplay Clear :: ?l)) with (Clear :: drawsOf l).
      f_equal. rewrite drawsOf_app, drawsOf_display. cbn. apply app_nil_r. }
    split.
    { rewrite sleepsOf_app, Hsl.
      change (sleepsOf (OnDisplay Clear :: ?l)) with (sleepsOf l).
      by rewrite sleepsOf_app, sleepsOf_display. }
    split; [done|].
    split; [apply displayScore_counts; lia|].
    split.
    { rewrite Hdraws. apply Forall_app. split.
      - pose proof (frameOf_inGrid _ Hinv) as Hframe.
        generalize 3%nat. intros n. induction n as [|n IH]; [constructor|].
        cbn [replicate mjoin list_join]. apply Forall_app. split; [|done].
        by apply Forall_cons.
      - apply Forall_cons. split; [done|].
        apply displayScore_inGrid. lia. }
    pose proof Hinv as [[Hlen _] _ _ Htl _ _ _].
    pose proof (resetGame_fresh _ _ _ _ Hlen Hreset)
      as (Hocc & _ & _ & _ & Hsc & Hst & _ & Hturn & _).
    done.
Qed.

(** After the won sweep, with button A pressed during the score display:
    seven sleeps, 22 score pixels, and a fresh round with nothing pending. *)
Lemma X19_witness :
  let w := handleButtonA sweepWorld23 in
  exists events w',
    gameOver [2; 2; 0; 3]%N w = Ok (events, w', []) /\
    sleepsOf events = [200; 200; 200; 200; 200; 200; 2000] /\
    length (displayScore (game w)) = 22%nat /\
    occupied (game w') = [mkCoords 2 2; mkCoords 2 1] /\
    currentTurn w' = TURN_NONE.
Proof.
  intros w.
  assert (Hreach : reachable w).
  { apply reach_buttonA, (run_reachable sweepFood sweep). reflexivity. }
  destruct (gameOver [2; 2; 0; 3]%N w) as [[[events w'] tape']| |] eqn:Hover;
    [|exfalso; revert Hover; vm_compute; discriminate..].
  assert (Htape : tape' = []).
  { revert Hover. vm_compute. by intros [= _ _ <-]. }
  subst tape'.
  exists events, w'. split; [reflexivity|].
  pose proof (X19_gameOver_trace [2; 2; 0; 3]%N w Hreach) as (_ & _ & Htrace).
  destruct (Htrace events w' [] Hover)
    as (_ & _ & Hsl & _ & _ & _ & Hocc & _ & _ & Hturn).
  split; [exact Hsl|]. split; [reflexivity|].
  split; [exact Hocc | exact Hturn].
Defined.

(** ** Classification on any game *)

(** X20. On every game with the array whole and the count within it,
    [getStepOutcome] stays inside the array and decides in this order: a
    candidate on the snake, except on [tail[0]], is a COLLISION even when
    it is the food cell; otherwise a candidate on the food cell is FULL
    from tailLength MAX_SNAKE_LENGTH - 1 on and EAT below, even when that
    cell is [tail[0]]; everything else is a MOVE. *)
Theorem X20_getStepOutcome_decision_order (g : Game) :
  wellFormed g ->
  let c := getNextMove g in
  exists o,
    getStepOutcome g = Ok o /\
    (o = COLLISION <-> hitsSnake g c) /\
    (o = FULL <-> ~ hitsSnake g c /\ c = foodCoords g /\
                  MAX_SNAKE_LENGTH - 1 <= tailLength (snake g)) /\
    (o = EAT <-> ~ hitsSnake g c /\ c = foodCoords g /\
                 tailLength (snake g) < MAX_SNAKE_LENGTH - 1) /\
    (o = MOVE <-> ~ hitsSnake g c /\ c <> foodCoords g).
Proof.
  intros Hwf. cbv zeta. exists (outcomeOf g).
  split; [by apply getStepOutcome_spec|].
  unfold outcomeOf. cbv zeta. rewrite hitsSnake_iff.
  set (c := getNextMove g).
  destruct (bool_decide (c ∈ occupied g)) eqn:Hin;
    [destruct (bool_decide (Some c = vacated g)) eqn:Hvac|];
    cbn [andb negb];
    rewrite ?bool_decide_eq_true, ?bool_decide_eq_false in *;
    repeat case_bool_decide;
    repeat split; intros; try done; try tauto; try lia;
    repeat match goal with H : _ /\ _ |- _ => destruct H end;
    try done; try tauto; try lia.
Qed.

(** A game that is not reachable: the food lies on the head's own tail
    cell (2,1) and the snake heads LEFT into it.  The cell is [tail[0]], so
    this is no collision, and the food is eaten. *)
Lemma X20_witness :
  let g0 := game initialWorld in
  let g := set_foodCoords (mkCoords 2 1)
             (set_snake (set_direction DOWN (snake g0)) g0) in
  let g1 := set_snake (set_direction LEFT (snake g)) g in
  wellFormed g1 /\ getNextMove g1 = foodCoords g1 /\
  vacated g1 = Some (getNextMove g1) /\
  getStepOutcome g1 = Ok EAT.
Proof.
  intros g0 g g1.
  assert (Hwf : wellFormed g1) by (split; [reflexivity | by vm_compute]).
  split; [exact Hwf|]. split; [reflexivity|]. split; [reflexivity|].
  destruct (X20_getStepOutcome_decision_order g1 Hwf)
    as (o & Hout & _ & _ & Heat & _).
  rewrite Hout. f_equal. apply Heat.
  split; [|split; [reflexivity | by vm_compute]].
  rewrite hitsSnake_iff. intros [_ Hne]. by apply Hne.
Defined.

(** ** Where the snake goes *)

(** X21. When a step from a reachable ONGOING state does not lose the game,
    the head has moved onto the candidate cell, which differs from the cell
    it left; the cell it left is a tail cell afterwards; and every cell of
    the snake afterwards is the candidate or was a cell of the snake
    before. *)
Theorem X21_snake_enters_only_the_candidate (tape : list N) (w w' : World)
    (tape' : list N) :
  reachable w -> status (game w) = ONGOING ->
  stepGame tape w = Ok (w', tape') ->
  status (game w') <> LOST ->
  let c := getNextMove (turnSnake (currentTurn w) (game w)) in
  head (snake (game w')) = c /\
  c <> head (snake (game w)) /\
  head (snake (game w)) ∈ tailCells (game w') /\
  (forall x, x ∈ occupied (game w') -> x = c \/ x ∈ occupied (game w)).
Proof.
  intros Hreach Hst Hstep Hlost. cbv zeta.
  pose proof (reachable_invariant w Hreach) as Hinv.
  pose proof (stepGame_cases tape w Hinv Hst) as Hcases. cbv zeta in Hcases.
  set (g := turnSnake (currentTurn w) (game w)) in *.
  assert (Hinvg : invariant g) by (by apply invariant_turnSnake).
  pose proof Hinvg as [Hwf Hhd _ _ _ Hstat _].
  assert (Hstg : status g = ONGOING) by (subst g; by rewrite turnSnake_spec).
  rewrite Hstg in Hstat. destruct Hstat as (Hmax & _ & _).
  assert (Hsame : head (snake g) = head (snake (game w)) /\
                  occupied g = occupied (game w))
    by (subst g; by rewrite turnSnake_spec).
  destruct Hsame as (Hh & Hocc).
  assert (Hne : getNextMove g <> head (snake (game w))).
  { rewrite <- Hh. destruct (getNextMove_torus g Hhd) as [Heq _].
    destruct (inGrid_cases _ Hhd) as (r & k & Hrk & Hr & Hk).
    rewrite Heq, Hrk. clear Heq Hrk.
    destruct (direction (snake g));
      do 5 (try (destruct r as [|r]; [|try lia]));
      do 5 (try (destruct k as [|k]; [|try lia]));
      try lia; by vm_compute. }
  rewrite <- Hh, <- Hocc in *.
  assert (Hmove : occupied (afterMove (getNextMove g) g)
                  = getNextMove g :: drop 1 (tailCells g) ++ [head (snake g)])
    by (by apply occupied_afterMove).
  assert (Hext : occupied (afterExtend (getNextMove g) g)
                 = getNextMove g :: occupied g)
    by (by apply occupied_afterExtend).
  destruct (outcomeOf g).
  - destruct Hcases as (_ & _ & Heq). rewrite Heq in Hstep.
    injection Hstep as <- <-. cbn [game].
    split; [done|]. split; [done|]. split.
    + rewrite tailCells_afterMove by done. apply elem_of_app. right.
      by apply list_elem_of_singleton.
    + intros x. rewrite Hmove, elem_of_cons, elem_of_app.
      intros [->|[Hx|Hx]]; [by left| |].
      * right. unfold occupied. apply elem_of_cons. right.
        destruct (tailCells g) as [|t0 rest]; [done|].
        apply elem_of_cons. by right.
      * right. apply list_elem_of_singleton in Hx as ->.
        apply elem_of_cons. by left.
  - destruct Hcases as (_ & _ & _ & Heq). rewrite Heq in Hstep.
    destruct (getRandomCoords _ _) as [[f t]| |]; try done.
    injection Hstep as <- <-. cbn [game].
    change (occupied (afterEat f g))
      with (occupied (afterExtend (getNextMove g) g)).
    change (tailCells (afterEat f g))
      with (tailCells (afterExtend (getNextMove g) g)).
    split; [done|]. split; [done|]. split.
    + rewrite tailCells_afterExtend by done. apply elem_of_cons. by left.
    + intros x. rewrite Hext, elem_of_cons. tauto.
  - destruct Hcases as (_ & Heq). rewrite Heq in Hstep.
    injection Hstep as <- <-. done.
  - destruct Hcases as (_ & _ & _ & Heq). rewrite Heq in Hstep.
    injection Hstep as <- <-. cbn [game].
    change (occupied (set_status WON ?x)) with (occupied x).
    change (tailCells (set_status WON ?x)) with (tailCells x).
    split; [done|]. split; [done|]. split.
    + rewrite tailCells_afterExtend by done. apply elem_of_cons. by left.
    + intros x. rewrite Hext, elem_of_cons. tauto.
Qed.

(** The plain move around the square: the head goes from (2,3) to (2,4). *)
Lemma X21_witness :
  let w := chaseWorld in
  exists w',
    stepGame [] w = Ok (w', []) /\
    head (snake (game w')) = mkCoords 2 4 /\
    head (snake (game w)) ∈ tailCells (game w').
Proof.
  intros w.
  assert (Hreach : reachable w).
  { refine (reach_buttonB (worldAfter sweepFood chase) _).
    apply (run_reachable sweepFood chase). reflexivity. }
  destruct (stepGame [] w) as [[w' tape']| |] eqn:Hstep;
    [|exfalso; revert Hstep; vm_compute; discriminate..].
  assert (Hfacts : tape' = [] /\ status (game w') <> LOST).
  { revert Hstep. vm_compute. by intros [= <- <-]. }
  destruct Hfacts as [-> Hlost].
  exists w'. split; [reflexivity|].
  pose proof (X21_snake_enters_only_the_candidate [] w w' [] Hreach
                eq_refl Hstep Hlost) as (Hh & _ & Hin & _).
  split; [exact Hh | exact Hin].
Defined.
